(** * HighsPostsolveStack: the reduction record and its replay

    A shallow embedding of [src/presolve/HighsPostsolveStack.h] (HiGHS):
    the recording operations that log presolve reductions on a packed
    value stack, and the two replay entry points [undo] and [undoUntil]
    that lift a reduced solution and basis to the original index space
    and pop the log in reverse.

    Conventions of the embedding:
    - a C++ [int] is a [Z]; no arithmetic on indices can overflow in the
      header (indices are only compared, decremented in loops and used
      to subscript vectors);
    - a [std::vector<T>] is a [list T], subscripted with stdpp's lookup
      and insert; a subscript outside the vector is undefined behaviour
      in C++ and is the failure [OutOfBounds] here;
    - a [double] is an IEEE 754 value of the Standard Library's
      [spec_float];
    - [assert] is modelled as compiled in: a failing assertion is the
      failure [AssertionFailed];
    - member functions that mutate [*this], the solution and the basis
      pass these explicitly and return them in the [Res] monad. *)

From Stdlib Require Import ZArith Floats.SpecFloat.
From stdpp Require Import base numbers option list.

Local Open Scope Z_scope.

(** ** Results of fallible code *)

Inductive Failure :=
| AssertionFailed   (* a C assert whose condition is false *)
| OutOfBounds       (* operator[] outside the vector *)
| BadLength         (* resize to a negative int converted to size_t *)
| BadPop.           (* pop of a type other than the one pushed, or empty *)

Inductive Res (A : Type) :=
| Ok (a : A)
| Fail (f : Failure).
Arguments Ok {A} a.
Arguments Fail {A} f.

#[global] Instance Res_ret : MRet Res := fun _ a => Ok a.
#[global] Instance Res_bind : MBind Res := fun _ _ k m =>
  match m with
  | Ok a => k a
  | Fail f => Fail f
  end.

Definition assert (b : bool) : Res unit :=
  if b then Ok tt else Fail AssertionFailed.

(** ** Scalars and vectors *)

Definition double := spec_float.

(** [std::isfinite]: neither an infinity nor a NaN. *)
Definition isfinite (x : double) : bool :=
  match x with
  | S754_zero _ | S754_finite _ _ _ => true
  | S754_infinity _ | S754_nan => false
  end.

(** [0.0], the value [resize] fills new [double] slots with. *)
Definition double0 : double := S754_zero false.

(** [v[i]] for an [int] subscript. *)
Definition at_ {A} (v : list A) (i : Z) : Res A :=
  if i <? 0 then Fail OutOfBounds
  else match v !! Z.to_nat i with
       | Some x => Ok x
       | None => Fail OutOfBounds
       end.

(** [v[i] = x] for an [int] subscript. *)
Definition assign {A} (v : list A) (i : Z) (x : A) : Res (list A) :=
  if i <? 0 then Fail OutOfBounds
  else if i <? Z.of_nat (length v) then Ok (<[Z.to_nat i := x]> v)
  else Fail OutOfBounds.

(** [v.resize(n)] for an [int] argument: a negative [n] converts to a
    huge [size_t] and the allocation throws. *)
Definition vresize {A} (d : A) (n : Z) (v : list A) : Res (list A) :=
  if n <? 0 then Fail BadLength else Ok (resize (Z.to_nat n) d v).

(** ** Enumerations *)

Module RowType.
Inductive t := Geq | Leq | Eq.
End RowType.

(** Modelled from the spec: [HighsBasisStatus] is declared in
    [lp_data/HConst.h]; the spec gives the closed set of statuses. *)
Module HighsBasisStatus.
Inductive t := BASIC | LOWER | UPPER | ZERO | NONBASIC.
End HighsBasisStatus.

Inductive ReductionType :=
| kFreeColSubstitution
| kDoubletonEquation
| kEqualityRowAddition
| kSingletonRow
| kFixedCol
| kRedundantRow
| kForcingRow
| kDuplicateRow
| kDuplicateColumn.

(** ** Reduction descriptors *)

Module FreeColSubstitution.
Record t := mk {
  rhs : double;
  colCost : double;
  row : Z;
  col : Z;
  rowType : RowType.t }.
End FreeColSubstitution.

Module DoubletonEquation.
Record t := mk {
  coef : double;
  coefSubst : double;
  rhs : double;
  substLower : double;
  substUpper : double;
  substCost : double;
  row : Z;
  colSubst : Z;
  col : Z;
  lowerTightened : bool;
  upperTightened : bool }.
End DoubletonEquation.

Module EqualityRowAddition.
Record t := mk {
  row : Z;
  addedEqRow : Z;
  eqRowScale : double }.
End EqualityRowAddition.

Module SingletonRow.
Record t := mk {
  coef : double;
  row : Z;
  col : Z;
  colLowerTightened : bool;
  colUpperTightened : bool }.
End SingletonRow.

Module FixedCol.
Record t := mk {
  fixValue : double;
  colCost : double;
  col : Z;
  fixType : HighsBasisStatus.t }.
End FixedCol.

Module RedundantRow.
Record t := mk { row : Z }.
End RedundantRow.

Module ForcingRow.
Record t := mk {
  side : double;
  row : Z;
  rowType : RowType.t }.
End ForcingRow.

Module DuplicateRow.
Record t := mk {
  duplicateRowScale : double;
  duplicateRow : Z;
  row : Z;
  rowLowerTightened : bool;
  rowUpperTightened : bool }.
End DuplicateRow.

Module DuplicateColumn.
Record t := mk {
  colScale : double;
  colLower : double;
  colUpper : double;
  duplicateColLower : double;
  duplicateColUpper : double;
  col : Z;
  duplicateCol : Z;
  colIntegral : bool;
  duplicateColIntegral : bool }.
End DuplicateColumn.

(** A nonzero of a matrix slice: [(index, value)]. *)
Definition Nonzero : Type := Z * double.

(** ** The packed value stack *)

(** Modelled from the spec: [HighsDataStack] lives in
    [util/HighsDataStack.h].  The spec describes a LIFO of untagged
    plain data with a logical read cursor: [push] appends, [pop] reads
    the most recent value not yet popped and moves the cursor down
    without discarding data, [resetPosition] rewinds the cursor to the
    top.  The stack does not tag what it stores; a pop at another type
    than the one pushed is a programming error, which the model makes
    observable by keeping the pushed value's type and failing with
    [BadPop]. *)
Module HighsDataStack.
Inductive Entry :=
| EFreeColSubstitution (r : FreeColSubstitution.t)
| EDoubletonEquation (r : DoubletonEquation.t)
| EEqualityRowAddition (r : EqualityRowAddition.t)
| ESingletonRow (r : SingletonRow.t)
| EFixedCol (r : FixedCol.t)
| ERedundantRow (r : RedundantRow.t)
| EForcingRow (r : ForcingRow.t)
| EDuplicateRow (r : DuplicateRow.t)
| EDuplicateColumn (r : DuplicateColumn.t)
| ENonzeros (v : list Nonzero).

Record t := mk {
  data : list Entry;
  position : nat }.

Definition empty : t := mk [] 0.

(** The plain-data types the header stores: what the templates
    [push<T>] and [pop<T>] are instantiated at. *)
Class Storable (T : Type) := {
  store : T → Entry;
  load : Entry → option T;
  load_store : ∀ x, load (store x) = Some x }.

#[global, refine] Instance FreeColSubstitution_storable :
  Storable FreeColSubstitution.t :=
  {| store := EFreeColSubstitution;
     load e := match e with EFreeColSubstitution r => Some r | _ => None end |}.
Proof. reflexivity. Defined.

#[global, refine] Instance DoubletonEquation_storable :
  Storable DoubletonEquation.t :=
  {| store := EDoubletonEquation;
     load e := match e with EDoubletonEquation r => Some r | _ => None end |}.
Proof. reflexivity. Defined.

#[global, refine] Instance EqualityRowAddition_storable :
  Storable EqualityRowAddition.t :=
  {| store := EEqualityRowAddition;
     load e := match e with EEqualityRowAddition r => Some r | _ => None end |}.
Proof. reflexivity. Defined.

#[global, refine] Instance SingletonRow_storable :
  Storable SingletonRow.t :=
  {| store := ESingletonRow;
     load e := match e with ESingletonRow r => Some r | _ => None end |}.
Proof. reflexivity. Defined.

#[global, refine] Instance FixedCol_storable :
  Storable FixedCol.t :=
  {| store := EFixedCol;
     load e := match e with EFixedCol r => Some r | _ => None end |}.
Proof. reflexivity. Defined.

#[global, refine] Instance RedundantRow_storable :
  Storable RedundantRow.t :=
  {| store := ERedundantRow;
     load e := match e with ERedundantRow r => Some r | _ => None end |}.
Proof. reflexivity. Defined.

#[global, refine] Instance ForcingRow_storable :
  Storable ForcingRow.t :=
  {| store := EForcingRow;
     load e := match e with EForcingRow r => Some r | _ => None end |}.
Proof. reflexivity. Defined.

#[global, refine] Instance DuplicateRow_storable :
  Storable DuplicateRow.t :=
  {| store := EDuplicateRow;
     load e := match e with EDuplicateRow r => Some r | _ => None end |}.
Proof. reflexivity. Defined.

#[global, refine] Instance DuplicateColumn_storable :
  Storable DuplicateColumn.t :=
  {| store := EDuplicateColumn;
     load e := match e with EDuplicateColumn r => Some r | _ => None end |}.
Proof. reflexivity. Defined.

#[global, refine] Instance Nonzeros_storable :
  Storable (list Nonzero) :=
  {| store := ENonzeros;
     load e := match e with ENonzeros v => Some v | _ => None end |}.
Proof. reflexivity. Defined.

(** [push]: append at the top; the read cursor is not moved. *)
Definition push {T} `{Storable T} (x : T) (s : t) : t :=
  mk (data s ++ [store x]) (position s).

(** [resetPosition]: the read cursor goes to the top; nothing is
    discarded. *)
Definition resetPosition (s : t) : t :=
  mk (data s) (length (data s)).

(** [pop]: the value just under the cursor, read at type [T], and the
    stack with the cursor moved below it. *)
Definition pop {T} `{Storable T} (s : t) : Res (T * t) :=
  match position s with
  | O => Fail BadPop
  | S p =>
      match data s !! p with
      | Some e =>
          match load e with
          | Some x => Ok (x, mk (data s) p)
          | None => Fail BadPop
          end
      | None => Fail BadPop
      end
  end.
End HighsDataStack.

(** ** Solution and basis *)

(** Modelled from the spec: [HighsSolution] and [HighsBasis] are declared
    in [lp_data/HStruct.h]; these are the arrays the header reads and
    writes. *)
Record HighsSolution := mkSolution {
  col_value : list double;
  col_dual : list double;
  row_value : list double;
  row_dual : list double }.

Record HighsBasis := mkBasis {
  col_status : list HighsBasisStatus.t;
  row_status : list HighsBasisStatus.t }.

(** ** The postsolve stack *)

Record HighsPostsolveStack := mkStack {
  reductionValues : HighsDataStack.t;
  reductions : list ReductionType;
  origColIndex : list Z;
  origRowIndex : list Z;
  rowValues : list Nonzero;
  colValues : list Nonzero;
  origNumCol : Z;
  origNumRow : Z }.

Definition set_reductionValues (s : HighsDataStack.t) (st : HighsPostsolveStack) :=
  mkStack s (reductions st) (origColIndex st) (origRowIndex st)
          (rowValues st) (colValues st) (origNumCol st) (origNumRow st).

Definition set_reductions (r : list ReductionType) (st : HighsPostsolveStack) :=
  mkStack (reductionValues st) r (origColIndex st) (origRowIndex st)
          (rowValues st) (colValues st) (origNumCol st) (origNumRow st).

Definition set_rowValues (v : list Nonzero) (st : HighsPostsolveStack) :=
  mkStack (reductionValues st) (reductions st) (origColIndex st) (origRowIndex st)
          v (colValues st) (origNumCol st) (origNumRow st).

Definition set_colValues (v : list Nonzero) (st : HighsPostsolveStack) :=
  mkStack (reductionValues st) (reductions st) (origColIndex st) (origRowIndex st)
          (rowValues st) v (origNumCol st) (origNumRow st).

(** [reductionValues.push(x)] *)
Definition pushValue {T} `{HighsDataStack.Storable T} (x : T)
    (st : HighsPostsolveStack) : HighsPostsolveStack :=
  set_reductionValues (HighsDataStack.push x (reductionValues st)) st.

(** [reductions.push_back(tag)] *)
Definition push_back (tag : ReductionType) (st : HighsPostsolveStack) :=
  set_reductions (reductions st ++ [tag]) st.

(** [size_t numReductions() const] *)
Definition numReductions (st : HighsPostsolveStack) : nat :=
  length (reductions st).

Definition getOrigRowIndex (st : HighsPostsolveStack) (row : Z) : Res Z :=
  at_ (origRowIndex st) row.

Definition getOrigColIndex (st : HighsPostsolveStack) (col : Z) : Res Z :=
  at_ (origColIndex st) col.

(** ** Recording operations *)

(** The loop [for (nz : vec) values.emplace_back(index[nz.index()],
    nz.value())] run on the vector [acc]. *)
Fixpoint emplaceAll (index : list Z) (vec : list Nonzero) (acc : list Nonzero)
    : Res (list Nonzero) :=
  match vec with
  | [] => Ok acc
  | nz :: rest =>
      o ← at_ index nz.1;
      emplaceAll index rest (acc ++ [(o, nz.2)])
  end.

Definition freeColSubstitution (row col : Z) (rhs colCost : double)
    (rowType : RowType.t) (rowVec colVec : list Nonzero)
    (st : HighsPostsolveStack) : Res HighsPostsolveStack :=
  rv ← emplaceAll (origColIndex st) rowVec [];
  let st := set_rowValues rv st in
  cv ← emplaceAll (origRowIndex st) colVec [];
  let st := set_colValues cv st in
  orow ← at_ (origRowIndex st) row;
  ocol ← at_ (origColIndex st) col;
  let st := pushValue (FreeColSubstitution.mk rhs colCost orow ocol rowType) st in
  let st := pushValue (rowValues st) st in
  let st := pushValue (colValues st) st in
  Ok (push_back kFreeColSubstitution st).

Definition doubletonEquation (row colSubst col : Z)
    (coefSubst coef rhs substLower substUpper oldLower oldUpper
     newLower newUpper substCost : double) (colVec : list Nonzero)
    (st : HighsPostsolveStack) : Res HighsPostsolveStack :=
  cv ← emplaceAll (origRowIndex st) colVec [];
  let st := set_colValues cv st in
  orow ← at_ (origRowIndex st) row;
  ocolSubst ← at_ (origColIndex st) colSubst;
  ocol ← at_ (origColIndex st) col;
  let st := pushValue (DoubletonEquation.mk coef coefSubst rhs substLower
                         substUpper substCost orow ocolSubst ocol
                         (SFltb oldLower newLower) (SFltb newUpper oldUpper)) st in
  let st := pushValue (colValues st) st in
  Ok (push_back kDoubletonEquation st).

Definition equalityRowAddition (row addedEqRow : Z) (eqRowScale : double)
    (st : HighsPostsolveStack) : Res HighsPostsolveStack :=
  orow ← at_ (origRowIndex st) row;
  oadded ← at_ (origRowIndex st) addedEqRow;
  let st := pushValue (EqualityRowAddition.mk orow oadded eqRowScale) st in
  Ok (push_back kEqualityRowAddition st).

Definition singletonRow (row col : Z) (coef : double)
    (tightenedColLower tightenedColUpper : bool)
    (st : HighsPostsolveStack) : Res HighsPostsolveStack :=
  orow ← at_ (origRowIndex st) row;
  ocol ← at_ (origColIndex st) col;
  let st := pushValue (SingletonRow.mk coef orow ocol tightenedColLower
                         tightenedColUpper) st in
  Ok (push_back kSingletonRow st).

Definition fixedColAtLower (col : Z) (fixValue colCost : double)
    (colVec : list Nonzero) (st : HighsPostsolveStack) : Res HighsPostsolveStack :=
  _ ← assert (isfinite fixValue);
  cv ← emplaceAll (origRowIndex st) colVec [];
  let st := set_colValues cv st in
  ocol ← at_ (origColIndex st) col;
  let st := pushValue (FixedCol.mk fixValue colCost ocol HighsBasisStatus.LOWER) st in
  let st := pushValue (colValues st) st in
  Ok (push_back kFixedCol st).

Definition fixedColAtUpper (col : Z) (fixValue colCost : double)
    (colVec : list Nonzero) (st : HighsPostsolveStack) : Res HighsPostsolveStack :=
  _ ← assert (isfinite fixValue);
  cv ← emplaceAll (origRowIndex st) colVec [];
  let st := set_colValues cv st in
  ocol ← at_ (origColIndex st) col;
  let st := pushValue (FixedCol.mk fixValue colCost ocol HighsBasisStatus.UPPER) st in
  let st := pushValue (colValues st) st in
  Ok (push_back kFixedCol st).

Definition removedFixedCol (col : Z) (fixValue colCost : double)
    (colVec : list Nonzero) (st : HighsPostsolveStack) : Res HighsPostsolveStack :=
  _ ← assert (isfinite fixValue);
  cv ← emplaceAll (origRowIndex st) colVec [];
  let st := set_colValues cv st in
  ocol ← at_ (origColIndex st) col;
  let st := pushValue (FixedCol.mk fixValue colCost ocol HighsBasisStatus.NONBASIC) st in
  let st := pushValue (colValues st) st in
  Ok (push_back kFixedCol st).

Definition redundantRow (row : Z) (st : HighsPostsolveStack)
    : Res HighsPostsolveStack :=
  let st := pushValue (RedundantRow.mk row) st in
  Ok (push_back kRedundantRow st).

Definition forcingRow (row : Z) (rowVec : list Nonzero) (side : double)
    (rowType : RowType.t) (st : HighsPostsolveStack) : Res HighsPostsolveStack :=
  rv ← emplaceAll (origColIndex st) rowVec [];
  let st := set_rowValues rv st in
  orow ← at_ (origRowIndex st) row;
  let st := pushValue (ForcingRow.mk side orow rowType) st in
  let st := pushValue (rowValues st) st in
  Ok (push_back kForcingRow st).

Definition duplicateRow (row : Z) (rowUpperTightened rowLowerTightened : bool)
    (duplicateRow : Z) (duplicateRowScale : double)
    (st : HighsPostsolveStack) : Res HighsPostsolveStack :=
  odup ← at_ (origRowIndex st) duplicateRow;
  orow ← at_ (origRowIndex st) row;
  let st := pushValue (DuplicateRow.mk duplicateRowScale odup orow
                         rowLowerTightened rowUpperTightened) st in
  Ok (push_back kDuplicateRow st).

Definition duplicateColumn (colScale colLower colUpper duplicateColLower
     duplicateColUpper : double) (col duplicateCol : Z)
    (colIntegral duplicateColIntegral : bool)
    (st : HighsPostsolveStack) : Res HighsPostsolveStack :=
  ocol ← at_ (origColIndex st) col;
  odup ← at_ (origColIndex st) duplicateCol;
  let st := pushValue (DuplicateColumn.mk colScale colLower colUpper
                         duplicateColLower duplicateColUpper ocol odup
                         colIntegral duplicateColIntegral) st in
  Ok (push_back kDuplicateColumn st).

(** A call of one of the recording operations with its arguments, and
    the operation it runs. *)
Inductive RecordingCall :=
| CallFreeColSubstitution (row col : Z) (rhs colCost : double)
    (rowType : RowType.t) (rowVec colVec : list Nonzero)
| CallDoubletonEquation (row colSubst col : Z)
    (coefSubst coef rhs substLower substUpper oldLower oldUpper
     newLower newUpper substCost : double) (colVec : list Nonzero)
| CallEqualityRowAddition (row addedEqRow : Z) (eqRowScale : double)
| CallSingletonRow (row col : Z) (coef : double)
    (tightenedColLower tightenedColUpper : bool)
| CallFixedColAtLower (col : Z) (fixValue colCost : double) (colVec : list Nonzero)
| CallFixedColAtUpper (col : Z) (fixValue colCost : double) (colVec : list Nonzero)
| CallRemovedFixedCol (col : Z) (fixValue colCost : double) (colVec : list Nonzero)
| CallRedundantRow (row : Z)
| CallForcingRow (row : Z) (rowVec : list Nonzero) (side : double)
    (rowType : RowType.t)
| CallDuplicateRow (row : Z) (rowUpperTightened rowLowerTightened : bool)
    (duplicateRow : Z) (duplicateRowScale : double)
| CallDuplicateColumn (colScale colLower colUpper duplicateColLower
     duplicateColUpper : double) (col duplicateCol : Z)
    (colIntegral duplicateColIntegral : bool).

Definition record (c : RecordingCall) (st : HighsPostsolveStack)
    : Res HighsPostsolveStack :=
  match c with
  | CallFreeColSubstitution row col rhs colCost rowType rowVec colVec =>
      freeColSubstitution row col rhs colCost rowType rowVec colVec st
  | CallDoubletonEquation row colSubst col coefSubst coef rhs substLower
      substUpper oldLower oldUpper newLower newUpper substCost colVec =>
      doubletonEquation row colSubst col coefSubst coef rhs substLower
        substUpper oldLower oldUpper newLower newUpper substCost colVec st
  | CallEqualityRowAddition row addedEqRow eqRowScale =>
      equalityRowAddition row addedEqRow eqRowScale st
  | CallSingletonRow row col coef lo up => singletonRow row col coef lo up st
  | CallFixedColAtLower col fixValue colCost colVec =>
      fixedColAtLower col fixValue colCost colVec st
  | CallFixedColAtUpper col fixValue colCost colVec =>
      fixedColAtUpper col fixValue colCost colVec st
  | CallRemovedFixedCol col fixValue colCost colVec =>
      removedFixedCol col fixValue colCost colVec st
  | CallRedundantRow row => redundantRow row st
  | CallForcingRow row rowVec side rowType => forcingRow row rowVec side rowType st
  | CallDuplicateRow row up lo dup scale => duplicateRow row up lo dup scale st
  | CallDuplicateColumn colScale colLower colUpper dupLower dupUpper col dup
      colIntegral dupIntegral =>
      duplicateColumn colScale colLower colUpper dupLower dupUpper col dup
        colIntegral dupIntegral st
  end.

(** ** Replay *)

(** The per-kind [undo] member functions are declared in the header and
    defined out of line; the replay is parametric in them.  Each takes
    the popped descriptor and payloads and updates solution and basis. *)
Class ReductionUndo := {
  FreeColSubstitution_undo :
    FreeColSubstitution.t → list Nonzero → list Nonzero →
    HighsSolution → HighsBasis → HighsSolution * HighsBasis;
  DoubletonEquation_undo :
    DoubletonEquation.t → list Nonzero →
    HighsSolution → HighsBasis → HighsSolution * HighsBasis;
  EqualityRowAddition_undo :
    EqualityRowAddition.t →
    HighsSolution → HighsBasis → HighsSolution * HighsBasis;
  SingletonRow_undo :
    SingletonRow.t →
    HighsSolution → HighsBasis → HighsSolution * HighsBasis;
  FixedCol_undo :
    FixedCol.t → list Nonzero →
    HighsSolution → HighsBasis → HighsSolution * HighsBasis;
  RedundantRow_undo :
    RedundantRow.t →
    HighsSolution → HighsBasis → HighsSolution * HighsBasis;
  ForcingRow_undo :
    ForcingRow.t → list Nonzero →
    HighsSolution → HighsBasis → HighsSolution * HighsBasis;
  DuplicateRow_undo :
    DuplicateRow.t →
    HighsSolution → HighsBasis → HighsSolution * HighsBasis;
  DuplicateColumn_undo :
    DuplicateColumn.t →
    HighsSolution → HighsBasis → double → HighsSolution * HighsBasis }.

(** [reductionValues.resetPosition()] *)
Definition rewind (st : HighsPostsolveStack) : HighsPostsolveStack :=
  set_reductionValues (HighsDataStack.resetPosition (reductionValues st)) st.

(** [reductionValues.pop(x)] *)
Definition popValue {T} `{HighsDataStack.Storable T} (st : HighsPostsolveStack)
    : Res (T * HighsPostsolveStack) :=
  '(x, s) ← HighsDataStack.pop (reductionValues st);
  Ok (x, set_reductionValues s st).

(** The loop [for (int i = index.size() - 1; i >= 0; --i)
    { assert(index[i] >= i); v[index[i]] = v[i]; }], entered with
    [n = i + 1]. *)
Fixpoint expandLoop {A} (index : list Z) (n : nat) (v : list A) : Res (list A) :=
  match n with
  | O => Ok v
  | S i =>
      oi ← at_ index (Z.of_nat i);
      _ ← assert (Z.of_nat i <=? oi);
      x ← at_ v (Z.of_nat i);
      v ← assign v oi x;
      expandLoop index i v
  end.

(** The loop [for (int i = index.size() - 1; i >= 0; --i)
    { status[index[i]] = status[i]; dual[index[i]] = dual[i]; }]. *)
Fixpoint expandLoop2 {A B} (index : list Z) (n : nat)
    (status : list A) (dual : list B) : Res (list A * list B) :=
  match n with
  | O => Ok (status, dual)
  | S i =>
      oi ← at_ index (Z.of_nat i);
      x ← at_ status (Z.of_nat i);
      status ← assign status oi x;
      y ← at_ dual (Z.of_nat i);
      dual ← assign dual oi y;
      expandLoop2 index i status dual
  end.

Section Replay.
Context `{ReductionUndo}.

(** The status a value-initialised [HighsBasisStatus] has: what
    [resize] fills new slots with.  The enumerators' values are in
    [lp_data/HConst.h]. *)
Variable status0 : HighsBasisStatus.t.

(** Expansion of solution and basis to the original index space:
    lines 329-360 of the header, repeated verbatim as lines 434-465. *)
Definition expandToOriginal (st : HighsPostsolveStack)
    (solution : HighsSolution) (basis : HighsBasis)
    : Res (HighsSolution * HighsBasis) :=
  let dualPostSolve :=
    bool_decide (length (col_dual solution) = length (col_value solution)) in
  colv ← vresize double0 (origNumCol st) (col_value solution);
  colv ← expandLoop (origColIndex st) (length (origColIndex st)) colv;
  rowv ← vresize double0 (origNumRow st) (row_value solution);
  rowv ← expandLoop (origRowIndex st) (length (origRowIndex st)) rowv;
  if dualPostSolve then
    cold ← vresize double0 (origNumCol st) (col_dual solution);
    cols ← vresize status0 (origNumCol st) (col_status basis);
    '(cols, cold) ←
      expandLoop2 (origColIndex st) (length (origColIndex st)) cols cold;
    rowd ← vresize double0 (origNumRow st) (row_dual solution);
    rows ← vresize status0 (origNumRow st) (row_status basis);
    '(rows, rowd) ←
      expandLoop2 (origRowIndex st) (length (origRowIndex st)) rows rowd;
    Ok (mkSolution colv cold rowv rowd, mkBasis cols rows)
  else
    Ok (mkSolution colv (col_dual solution) rowv (row_dual solution), basis).

(** The body of [switch (reductions[i])]: lines 364-423, repeated
    verbatim as lines 469-528. *)
Definition undoReduction (feastol : double) (tag : ReductionType)
    (st : HighsPostsolveStack) (solution : HighsSolution) (basis : HighsBasis)
    : Res (HighsPostsolveStack * (HighsSolution * HighsBasis)) :=
  match tag with
  | kFreeColSubstitution =>
      '(cv, st) ← popValue st;
      let st := set_colValues cv st in
      '(rv, st) ← popValue st;
      let st := set_rowValues rv st in
      '(reduction, st) ← popValue st;
      Ok (st, FreeColSubstitution_undo reduction (rowValues st) (colValues st)
                solution basis)
  | kDoubletonEquation =>
      '(cv, st) ← popValue st;
      let st := set_colValues cv st in
      '(reduction, st) ← popValue st;
      Ok (st, DoubletonEquation_undo reduction (colValues st) solution basis)
  | kEqualityRowAddition =>
      '(reduction, st) ← popValue st;
      Ok (st, EqualityRowAddition_undo reduction solution basis)
  | kSingletonRow =>
      '(reduction, st) ← popValue st;
      Ok (st, SingletonRow_undo reduction solution basis)
  | kFixedCol =>
      '(cv, st) ← popValue st;
      let st := set_colValues cv st in
      '(reduction, st) ← popValue st;
      Ok (st, FixedCol_undo reduction (colValues st) solution basis)
  | kRedundantRow =>
      '(reduction, st) ← popValue st;
      Ok (st, RedundantRow_undo reduction solution basis)
  | kForcingRow =>
      '(rv, st) ← popValue st;
      let st := set_rowValues rv st in
      '(reduction, st) ← popValue st;
      Ok (st, ForcingRow_undo reduction (rowValues st) solution basis)
  | kDuplicateRow =>
      '(reduction, st) ← popValue st;
      Ok (st, DuplicateRow_undo reduction solution basis)
  | kDuplicateColumn =>
      '(reduction, st) ← popValue st;
      Ok (st, DuplicateColumn_undo reduction solution basis feastol)
  end.

(** [for (int i = reductions.size() - 1; i >= 0; --i)], entered with
    [n = i + 1]. *)
Fixpoint undoLoop (feastol : double) (n : nat) (st : HighsPostsolveStack)
    (sb : HighsSolution * HighsBasis)
    : Res (HighsPostsolveStack * (HighsSolution * HighsBasis)) :=
  match n with
  | O => Ok (st, sb)
  | S i =>
      tag ← at_ (reductions st) (Z.of_nat i);
      '(st, sb) ← undoReduction feastol tag st sb.1 sb.2;
      undoLoop feastol i st sb
  end.

(** [for (int i = reductions.size() - 1; i >= numReductions; --i)],
    entered with [n = i + 1]; with a negative bound the loop goes on
    to read [reductions[-1]]. *)
Fixpoint undoUntilLoop (feastol : double) (numReductions : Z) (n : nat)
    (st : HighsPostsolveStack) (sb : HighsSolution * HighsBasis)
    : Res (HighsPostsolveStack * (HighsSolution * HighsBasis)) :=
  match n with
  | O => if numReductions <=? -1 then Fail OutOfBounds else Ok (st, sb)
  | S i =>
      if numReductions <=? Z.of_nat i then
        tag ← at_ (reductions st) (Z.of_nat i);
        '(st, sb) ← undoReduction feastol tag st sb.1 sb.2;
        undoUntilLoop feastol numReductions i st sb
      else Ok (st, sb)
  end.

Definition undo (st : HighsPostsolveStack) (solution : HighsSolution)
    (basis : HighsBasis) (feastol : double)
    : Res (HighsPostsolveStack * (HighsSolution * HighsBasis)) :=
  let st := rewind st in
  if bool_decide (length (col_value solution) ≠ length (origColIndex st))
  then Ok (st, (solution, basis))
  else if bool_decide (length (row_value solution) ≠ length (origRowIndex st))
  then Ok (st, (solution, basis))
  else
    sb ← expandToOriginal st solution basis;
    undoLoop feastol (length (reductions st)) st sb.

Definition undoUntil (st : HighsPostsolveStack) (solution : HighsSolution)
    (basis : HighsBasis) (feastol : double) (numReductions : Z)
    : Res (HighsPostsolveStack * (HighsSolution * HighsBasis)) :=
  let st := rewind st in
  if bool_decide (length (col_value solution) ≠ length (origColIndex st))
  then Ok (st, (solution, basis))
  else if bool_decide (length (row_value solution) ≠ length (origRowIndex st))
  then Ok (st, (solution, basis))
  else
    sb ← expandToOriginal st solution basis;
    undoUntilLoop feastol numReductions (length (reductions st)) st sb.
End Replay.

(** ** The logical record *)

(** One recorded reduction: its descriptor together with the side
    payloads that accompany it on the value stack. *)
Inductive Reduction :=
| RFreeColSubstitution (r : FreeColSubstitution.t) (rowValues colValues : list Nonzero)
| RDoubletonEquation (r : DoubletonEquation.t) (colValues : list Nonzero)
| REqualityRowAddition (r : EqualityRowAddition.t)
| RSingletonRow (r : SingletonRow.t)
| RFixedCol (r : FixedCol.t) (colValues : list Nonzero)
| RRedundantRow (r : RedundantRow.t)
| RForcingRow (r : ForcingRow.t) (rowValues : list Nonzero)
| RDuplicateRow (r : DuplicateRow.t)
| RDuplicateColumn (r : DuplicateColumn.t).

Definition tagOf (r : Reduction) : ReductionType :=
  match r with
  | RFreeColSubstitution _ _ _ => kFreeColSubstitution
  | RDoubletonEquation _ _ => kDoubletonEquation
  | REqualityRowAddition _ => kEqualityRowAddition
  | RSingletonRow _ => kSingletonRow
  | RFixedCol _ _ => kFixedCol
  | RRedundantRow _ => kRedundantRow
  | RForcingRow _ _ => kForcingRow
  | RDuplicateRow _ => kDuplicateRow
  | RDuplicateColumn _ => kDuplicateColumn
  end.

(** The stack entries of a recorded reduction, bottom first: the order
    in which section 4.C of the specification says they are pushed. *)
Definition pushOrder (r : Reduction) : list HighsDataStack.Entry :=
  match r with
  | RFreeColSubstitution d rowValues colValues =>
      [HighsDataStack.EFreeColSubstitution d;
       HighsDataStack.ENonzeros rowValues;
       HighsDataStack.ENonzeros colValues]
  | RDoubletonEquation d colValues =>
      [HighsDataStack.EDoubletonEquation d; HighsDataStack.ENonzeros colValues]
  | REqualityRowAddition d => [HighsDataStack.EEqualityRowAddition d]
  | RSingletonRow d => [HighsDataStack.ESingletonRow d]
  | RFixedCol d colValues =>
      [HighsDataStack.EFixedCol d; HighsDataStack.ENonzeros colValues]
  | RRedundantRow d => [HighsDataStack.ERedundantRow d]
  | RForcingRow d rowValues =>
      [HighsDataStack.EForcingRow d; HighsDataStack.ENonzeros rowValues]
  | RDuplicateRow d => [HighsDataStack.EDuplicateRow d]
  | RDuplicateColumn d => [HighsDataStack.EDuplicateColumn d]
  end.

(** The scratch members [rowValues] and [colValues] after the replay of
    a reduction: a popped payload stays in the member it was popped
    into. *)
Definition scratchAfter (r : Reduction) (st : HighsPostsolveStack)
    : HighsPostsolveStack :=
  match r with
  | RFreeColSubstitution _ rv cv => set_rowValues rv (set_colValues cv st)
  | RDoubletonEquation _ cv | RFixedCol _ cv => set_colValues cv st
  | RForcingRow _ rv => set_rowValues rv st
  | _ => st
  end.

(** The per-kind undo a recorded reduction stands for. *)
Definition applyUndo `{ReductionUndo} (feastol : double) (r : Reduction)
    (sb : HighsSolution * HighsBasis) : HighsSolution * HighsBasis :=
  match r with
  | RFreeColSubstitution d rv cv => FreeColSubstitution_undo d rv cv sb.1 sb.2
  | RDoubletonEquation d cv => DoubletonEquation_undo d cv sb.1 sb.2
  | REqualityRowAddition d => EqualityRowAddition_undo d sb.1 sb.2
  | RSingletonRow d => SingletonRow_undo d sb.1 sb.2
  | RFixedCol d cv => FixedCol_undo d cv sb.1 sb.2
  | RRedundantRow d => RedundantRow_undo d sb.1 sb.2
  | RForcingRow d rv => ForcingRow_undo d rv sb.1 sb.2
  | RDuplicateRow d => DuplicateRow_undo d sb.1 sb.2
  | RDuplicateColumn d => DuplicateColumn_undo d sb.1 sb.2 feastol
  end.

(** The state holds the log [log]: the tags are the log's kinds and the
    value stack is the concatenation of the entries of each reduction. *)
Definition Logged (st : HighsPostsolveStack) (log : list Reduction) : Prop :=
  reductions st = tagOf <$> log ∧
  HighsDataStack.data (reductionValues st) = log ≫= pushOrder.

(** The replay of [log]: the per-kind undo of each reduction, the last
    recorded first. *)
Definition replayed `{ReductionUndo} (feastol : double) (log : list Reduction)
    (sb : HighsSolution * HighsBasis) : HighsSolution * HighsBasis :=
  fold_left (λ sb r, applyUndo feastol r sb) (rev log) sb.

(** What a successful recording call leaves: the reduction [r] it has
    logged sits on top of the previous stack contents in push order, its
    tag ends the record, and read cursor and index maps are as before. *)
Definition Appended (r : Reduction) (st st' : HighsPostsolveStack) : Prop :=
  HighsDataStack.data (reductionValues st')
    = HighsDataStack.data (reductionValues st) ++ pushOrder r ∧
  reductions st' = reductions st ++ [tagOf r] ∧
  HighsDataStack.position (reductionValues st')
    = HighsDataStack.position (reductionValues st) ∧
  origColIndex st' = origColIndex st ∧ origRowIndex st' = origRowIndex st ∧
  origNumCol st' = origNumCol st ∧ origNumRow st' = origNumRow st.

(** The cursor of [st] moved to [p]. *)
Definition cursorAt (p : nat) (st : HighsPostsolveStack) : HighsPostsolveStack :=
  set_reductionValues
    (HighsDataStack.mk (HighsDataStack.data (reductionValues st)) p) st.

(** The entries the read cursor has passed over on its way from its
    place in [s] down to its place in [s'], in the order the pops read
    them: top first. *)
Definition poppedBetween (s s' : HighsDataStack.t) : list HighsDataStack.Entry :=
  rev (take (HighsDataStack.position s - HighsDataStack.position s')
            (drop (HighsDataStack.position s') (HighsDataStack.data s))).

(** The assertions of a recording call hold: the FixedCol operations
    assert a finite [fixValue]. *)
Definition AssertionsHold (c : RecordingCall) : Prop :=
  match c with
  | CallFixedColAtLower _ fixValue _ _
  | CallFixedColAtUpper _ fixValue _ _
  | CallRemovedFixedCol _ fixValue _ _ => isfinite fixValue = true
  | _ => True
  end.

(** The state a replay ends in differs from the one it starts in by the
    cursor and the scratch members only. *)
Definition SameRecord (st st' : HighsPostsolveStack) : Prop :=
  reductions st' = reductions st ∧
  HighsDataStack.data (reductionValues st')
    = HighsDataStack.data (reductionValues st) ∧
  origColIndex st' = origColIndex st ∧ origRowIndex st' = origRowIndex st ∧
  origNumCol st' = origNumCol st ∧ origNumRow st' = origNumRow st.

(** Index translation as the specification words it: the vector
    [values] is [vec] with each index sent through [index]. *)
Definition Translated (index : list Z) (vec values : list Nonzero) : Prop :=
  Forall2 (λ nz nz', at_ index nz.1 = Ok nz'.1 ∧ nz'.2 = nz.2) vec values.

(** What the specification says of the indices a recording call stores:
    row indices go through [origRowIndex] and column indices through
    [origColIndex], in the descriptor and in the payloads, except for
    [redundantRow], which stores the row it is given. *)
Definition StoresOriginalIndices (st : HighsPostsolveStack)
    (c : RecordingCall) (r : Reduction) : Prop :=
  match c, r with
  | CallFreeColSubstitution row col _ _ _ rowVec colVec,
    RFreeColSubstitution d rv cv =>
      at_ (origRowIndex st) row = Ok (FreeColSubstitution.row d) ∧
      at_ (origColIndex st) col = Ok (FreeColSubstitution.col d) ∧
      Translated (origColIndex st) rowVec rv ∧
      Translated (origRowIndex st) colVec cv
  | CallDoubletonEquation row colSubst col _ _ _ _ _ _ _ _ _ _ colVec,
    RDoubletonEquation d cv =>
      at_ (origRowIndex st) row = Ok (DoubletonEquation.row d) ∧
      at_ (origColIndex st) colSubst = Ok (DoubletonEquation.colSubst d) ∧
      at_ (origColIndex st) col = Ok (DoubletonEquation.col d) ∧
      Translated (origRowIndex st) colVec cv
  | CallEqualityRowAddition row addedEqRow _, REqualityRowAddition d =>
      at_ (origRowIndex st) row = Ok (EqualityRowAddition.row d) ∧
      at_ (origRowIndex st) addedEqRow = Ok (EqualityRowAddition.addedEqRow d)
  | CallSingletonRow row col _ _ _, RSingletonRow d =>
      at_ (origRowIndex st) row = Ok (SingletonRow.row d) ∧
      at_ (origColIndex st) col = Ok (SingletonRow.col d)
  | CallFixedColAtLower col _ _ colVec, RFixedCol d cv
  | CallFixedColAtUpper col _ _ colVec, RFixedCol d cv
  | CallRemovedFixedCol col _ _ colVec, RFixedCol d cv =>
      at_ (origColIndex st) col = Ok (FixedCol.col d) ∧
      Translated (origRowIndex st) colVec cv
  | CallRedundantRow row, RRedundantRow d =>
      RedundantRow.row d = row
  | CallForcingRow row rowVec _ _, RForcingRow d rv =>
      at_ (origRowIndex st) row = Ok (ForcingRow.row d) ∧
      Translated (origColIndex st) rowVec rv
  | CallDuplicateRow row _ _ duplicateRow _, RDuplicateRow d =>
      at_ (origRowIndex st) row = Ok (DuplicateRow.row d) ∧
      at_ (origRowIndex st) duplicateRow = Ok (DuplicateRow.duplicateRow d)
  | CallDuplicateColumn _ _ _ _ _ col duplicateCol _ _, RDuplicateColumn d =>
      at_ (origColIndex st) col = Ok (DuplicateColumn.col d) ∧
      at_ (origColIndex st) duplicateCol = Ok (DuplicateColumn.duplicateCol d)
  | _, _ => False
  end.

(** ** Index maps *)

Definition StrictlyIncreasing (index : list Z) : Prop :=
  ∀ i j x y, index !! i = Some x → index !! j = Some y → (i < j)%nat → x < y.

(** [index[i] >= i] for every valid [i]. *)
Definition AboveDiagonal (index : list Z) : Prop :=
  ∀ i x, index !! i = Some x → Z.of_nat i ≤ x.

(** Every entry of [index] is an index of the original space of
    dimension [origNum]. *)
Definition WithinOriginal (index : list Z) (origNum : Z) : Prop :=
  ∀ i x, index !! i = Some x → x < origNum.

(** [index] maps into the original space of dimension [origNum], the
    way the header asserts and needs it: strictly increasing, never
    below the diagonal, and below the dimension. *)
Definition ValidIndexMap (index : list Z) (origNum : Z) : Prop :=
  StrictlyIncreasing index ∧ AboveDiagonal index ∧
  0 ≤ origNum ∧ WithinOriginal index origNum.

(** [v'] is [v] expanded through [index] to dimension [origNum]: it has
    the original dimension, and slot [index[i]] holds what slot [i] of
    [v] (resized with filler [d]) held. *)
Definition Expanded {A} (index : list Z) (origNum : Z) (d : A)
    (v v' : list A) : Prop :=
  length v' = Z.to_nat origNum ∧
  ∀ i x, index !! i = Some x →
    v' !! Z.to_nat x = resize (Z.to_nat origNum) d v !! i.

(** The identity map of dimension [origNum]: what [initializeIndexMaps]
    leaves. *)
Definition IdentityMap (index : list Z) (origNum : Z) : Prop :=
  Z.of_nat (length index) = origNum ∧
  ∀ i x, index !! i = Some x → x = Z.of_nat i.

(** Modelled from the spec: [initializeIndexMaps] is declared in the
    header and defined out of line.  The spec has it fill both maps with
    the identity and record the original dimensions. *)
Definition initializeIndexMaps (numRow numCol : Z) (st : HighsPostsolveStack)
    : HighsPostsolveStack :=
  mkStack (reductionValues st) (reductions st)
          (Z.of_nat <$> seq 0 (Z.to_nat numCol))
          (Z.of_nat <$> seq 0 (Z.to_nat numRow))
          (rowValues st) (colValues st) numCol numRow.

(** The initial state of a postsolve stack over the given index maps. *)
Definition initialStack (origColIndex origRowIndex : list Z)
    (origNumCol origNumRow : Z) : HighsPostsolveStack :=
  mkStack HighsDataStack.empty [] origColIndex origRowIndex [] []
          origNumCol origNumRow.

(** Recording a sequence of calls. *)
Fixpoint recordAll (cs : list RecordingCall) (st : HighsPostsolveStack)
    : Res HighsPostsolveStack :=
  match cs with
  | [] => Ok st
  | c :: cs => st ← record c st; recordAll cs st
  end.

(** ** Sample data *)

Definition one : double := S754_finite false 4503599627370496 (-52).
Definition two : double := S754_finite false 4503599627370496 (-51).
Definition three : double := S754_finite false 6755399441055744 (-51).
Definition infinity : double := S754_infinity false.

(** Undo rules to run the replay on samples: the primal part of the
    FixedCol rule ([col_value[col] = fixValue]); the other kinds leave
    solution and basis as they are. *)
Definition sampleUndo : ReductionUndo := {|
  FreeColSubstitution_undo _ _ _ s b := (s, b);
  DoubletonEquation_undo _ _ s b := (s, b);
  EqualityRowAddition_undo _ s b := (s, b);
  SingletonRow_undo _ s b := (s, b);
  FixedCol_undo d _ s b :=
    (mkSolution (<[Z.to_nat (FixedCol.col d) := FixedCol.fixValue d]> (col_value s))
                (col_dual s) (row_value s) (row_dual s), b);
  RedundantRow_undo _ s b := (s, b);
  ForcingRow_undo _ _ s b := (s, b);
  DuplicateRow_undo _ s b := (s, b);
  DuplicateColumn_undo _ s b _ := (s, b) |}.

(** Two of four columns and two of three rows are left. *)
Definition sampleStack : HighsPostsolveStack :=
  initialStack [1; 3] [0; 2] 4 3.

Definition sampleFreeCol : RecordingCall :=
  CallFreeColSubstitution 1 1 one two RowType.Eq [(0, one); (1, two)] [(1, two)].

Definition sampleCalls : list RecordingCall :=
  [CallFixedColAtLower 0 two one [(1, one)]; CallRedundantRow 1; sampleFreeCol].

Definition sampleRecorded : HighsPostsolveStack :=
  Eval vm_compute in
    match recordAll sampleCalls sampleStack with
    | Ok st => st
    | Fail _ => sampleStack
    end.

Definition sampleLog : list Reduction :=
  [RFixedCol (FixedCol.mk two one 1 HighsBasisStatus.LOWER) [(2, one)];
   RRedundantRow (RedundantRow.mk 1);
   RFreeColSubstitution (FreeColSubstitution.mk one two 2 3 RowType.Eq)
     [(1, one); (3, two)] [(2, two)]].

Definition sampleSolution : HighsSolution :=
  mkSolution [one; two] [] [two; three] [].

Definition sampleDualSolution : HighsSolution :=
  mkSolution [one; two] [three; one] [two; three] [one; one].

Definition sampleBasis : HighsBasis :=
  mkBasis [HighsBasisStatus.BASIC; HighsBasisStatus.UPPER]
          [HighsBasisStatus.BASIC; HighsBasisStatus.NONBASIC].

Definition sampleExpanded : HighsSolution * HighsBasis :=
  Eval vm_compute in
    match expandToOriginal HighsBasisStatus.LOWER sampleRecorded
            sampleSolution sampleBasis with
    | Ok sb => sb
    | Fail _ => (sampleSolution, sampleBasis)
    end.

(** ** Observations on replay results *)

(** Two states that differ at most in the scratch members [rowValues]
    and [colValues]. *)
Definition Agree (st1 st2 : HighsPostsolveStack) : Prop :=
  reductionValues st1 = reductionValues st2 ∧
  reductions st1 = reductions st2 ∧
  origColIndex st1 = origColIndex st2 ∧ origRowIndex st1 = origRowIndex st2 ∧
  origNumCol st1 = origNumCol st2 ∧ origNumRow st1 = origNumRow st2.

(** Two runs of a replay with the same outcome: the same failure, or
    the same solution and basis on states that agree up to scratch. *)
Definition SameOutcome
    (r1 r2 : Res (HighsPostsolveStack * (HighsSolution * HighsBasis))) : Prop :=
  match r1, r2 with
  | Ok (st1, sb1), Ok (st2, sb2) => Agree st1 st2 ∧ sb1 = sb2
  | Fail f1, Fail f2 => f1 = f2
  | _, _ => False
  end.

(** What the expansion loop checks of an index map on its way: the
    assertion [index[i] >= i], and that each write stays inside the
    vector resized to [origNum]. *)
Definition CheckedIndexMap (index : list Z) (origNum : Z) : Prop :=
  0 ≤ origNum ∧ AboveDiagonal index ∧ WithinOriginal index origNum.

(** ** The value of a double *)

(** [x] is a binary64 value: a finite [x] has a canonical mantissa of
    at most 53 bits and an exponent within range. *)
Definition binary64 (x : double) : Prop := valid_binary 53 1024 x = true.

(** [std::isnan] *)
Definition isnan (x : double) : bool :=
  match x with
  | S754_nan => true
  | _ => false
  end.

(** The value of [x] counted in units of [2^-1074], the smallest
    positive double: a finite [±m·2^e] is [±m·2^(e+1074)], both zeros
    are [0], and the infinities stand beyond every finite double, at
    [±2^2098]. *)
Definition ulps (x : double) : Z :=
  match x with
  | S754_zero _ | S754_nan => 0
  | S754_infinity s => if s then - 2 ^ 2098 else 2 ^ 2098
  | S754_finite s m e =>
      (if s then -1 else 1) * (Z.pos m * 2 ^ (e + 1074))
  end.

(** * Properties *)

(** ** The result monad *)

Lemma bind_Ok_inv {A B} (m : Res A) (k : A → Res B) (b : B) :
  m ≫= k = Ok b → ∃ a, m = Ok a ∧ k a = Ok b.
Proof. destruct m as [a|f]; simpl; [eauto | discriminate]. Qed.

Lemma assert_Ok_inv (b : bool) (u : unit) : assert b = Ok u → b = true.
Proof. by destruct b. Qed.

(** Decompose a successful run into the successful steps it is made of. *)
Ltac res_inv :=
  repeat match goal with
  | H : _ ≫= _ = Ok _ |- _ =>
      let a := fresh "a" in
      let Ha := fresh "Ha" in
      apply bind_Ok_inv in H as (a & Ha & H)
  | H : assert _ = Ok _ |- _ => apply assert_Ok_inv in H
  | H : Ok _ = Ok _ |- _ => injection H as H
  end.

(** ** Vectors *)

Lemma at_Ok {A} (v : list A) (i : nat) (x : A) :
  v !! i = Some x → at_ v (Z.of_nat i) = Ok x.
Proof.
  intros Hx. unfold at_.
  destruct (Z.ltb_spec (Z.of_nat i) 0) as [|_]; [lia|].
  by rewrite Nat2Z.id, Hx.
Qed.

Lemma at_Ok_inv {A} (v : list A) (i : Z) (x : A) :
  at_ v i = Ok x → 0 ≤ i ∧ v !! Z.to_nat i = Some x.
Proof.
  unfold at_. destruct (Z.ltb_spec i 0); [discriminate|].
  destruct (v !! Z.to_nat i); [|discriminate].
  intros [= ->]. done.
Qed.

Lemma assign_Ok {A} (v : list A) (i : Z) (x : A) :
  0 ≤ i < Z.of_nat (length v) → assign v i x = Ok (<[Z.to_nat i := x]> v).
Proof.
  intros Hi. unfold assign.
  destruct (Z.ltb_spec i 0) as [|_]; [lia|].
  by destruct (Z.ltb_spec i (Z.of_nat (length v))) as [_|]; [|lia].
Qed.

(** ** Recording *)

Lemma emplaceAll_Translated index vec acc values :
  emplaceAll index vec acc = Ok values →
  ∃ tr, values = acc ++ tr ∧ Translated index vec tr.
Proof.
  revert acc. induction vec as [|nz vec IH]; simpl; intros acc Hrun.
  - injection Hrun as <-. exists []. split; [by rewrite app_nil_r | constructor].
  - res_inv. apply IH in Hrun as (tr & -> & Htr).
    exists ((a, nz.2) :: tr). split; [by rewrite <- app_assoc|].
    constructor; [done | exact Htr].
Qed.

Lemma Translated_emplaceAll index vec acc tr :
  Translated index vec tr → emplaceAll index vec acc = Ok (acc ++ tr).
Proof.
  intros Htr. revert acc.
  induction Htr as [|nz [o w] vec tr [Ho Hw] _ IH]; simpl; intros acc.
  - by rewrite app_nil_r.
  - simpl in Ho, Hw. rewrite Ho. simpl. rewrite IH, <- app_assoc. by subst w.
Qed.

Lemma record_appends c st st' :
  record c st = Ok st' →
  ∃ r, StoresOriginalIndices st c r ∧ Appended r st st'.
Proof.
  destruct c; simpl;
    [unfold freeColSubstitution | unfold doubletonEquation
    | unfold equalityRowAddition | unfold singletonRow
    | unfold fixedColAtLower | unfold fixedColAtUpper | unfold removedFixedCol
    | unfold redundantRow | unfold forcingRow | unfold duplicateRow
    | unfold duplicateColumn ];
    intros Hrun; simpl in Hrun; res_inv; subst st';
    repeat match goal with
    | H : emplaceAll _ _ [] = Ok _ |- _ =>
        apply emplaceAll_Translated in H as (? & -> & ?)
    end; simpl.
  all: [> eexists (RFreeColSubstitution _ _ _)
          | eexists (RDoubletonEquation _ _)
          | eexists (REqualityRowAddition _)
          | eexists (RSingletonRow _)
          | eexists (RFixedCol _ _)
          | eexists (RFixedCol _ _)
          | eexists (RFixedCol _ _)
          | eexists (RRedundantRow _)
          | eexists (RForcingRow _ _)
          | eexists (RDuplicateRow _)
          | eexists (RDuplicateColumn _) ].
  all: split; cycle 1.
  all: try (unfold Appended; simpl; rewrite <- ?app_assoc; simpl;
            repeat split; reflexivity).
  all: simpl; done.
Qed.

(** Conversely, a call whose indices are all in range and whose
    assertion holds is recorded. *)
Lemma record_succeeds c st r :
  StoresOriginalIndices st c r → AssertionsHold c →
  ∃ st', record c st = Ok st'.
Proof.
  destruct c, r; simpl; try done; intros Hidx Hfin;
    [unfold freeColSubstitution | unfold doubletonEquation
    | unfold equalityRowAddition | unfold singletonRow
    | unfold fixedColAtLower | unfold fixedColAtUpper | unfold removedFixedCol
    | unfold redundantRow | unfold forcingRow | unfold duplicateRow
    | unfold duplicateColumn ];
    try rewrite Hfin; simpl;
    repeat match goal with
    | Hc : _ ∧ _ |- _ => destruct Hc
    | Htr : Translated ?index ?vec _ |- context [emplaceAll ?index ?vec []] =>
        rewrite (Translated_emplaceAll _ _ [] _ Htr); simpl
    | Hat : at_ ?v ?i = Ok _ |- context [at_ ?v ?i] => rewrite Hat; simpl
    end; by eexists.
Qed.

Lemma StoresOriginalIndices_maps st1 st2 c r :
  origColIndex st1 = origColIndex st2 → origRowIndex st1 = origRowIndex st2 →
  StoresOriginalIndices st1 c r → StoresOriginalIndices st2 c r.
Proof. intros Hc Hr. unfold StoresOriginalIndices. by rewrite Hc, Hr. Qed.

(** What a sequence of recording calls adds to a state. *)
Lemma recordAll_appends cs st st' :
  recordAll cs st = Ok st' →
  ∃ log,
    Forall2 (StoresOriginalIndices st) cs log ∧
    reductions st' = reductions st ++ (tagOf <$> log) ∧
    HighsDataStack.data (reductionValues st')
      = HighsDataStack.data (reductionValues st) ++ (log ≫= pushOrder) ∧
    HighsDataStack.position (reductionValues st')
      = HighsDataStack.position (reductionValues st) ∧
    origColIndex st' = origColIndex st ∧ origRowIndex st' = origRowIndex st ∧
    origNumCol st' = origNumCol st ∧ origNumRow st' = origNumRow st.
Proof.
  revert st. induction cs as [|c cs IH]; simpl; intros st Hrec.
  - injection Hrec as <-. exists []. rewrite !app_nil_r.
    repeat split; constructor.
  - res_inv.
    apply record_appends in Ha as (r & Hidx & Hd & Ht & Hp & Hci & Hri & Hnc & Hnr).
    apply IH in Hrec as (log & Hall & Ht' & Hd' & Hp' & Hci' & Hri' & Hnc' & Hnr').
    exists (r :: log). split.
    { constructor; [done|].
      eapply Forall2_impl; [exact Hall|]. intros c' r'.
      by apply StoresOriginalIndices_maps. }
    rewrite Ht', Hd', Ht, Hd. simpl. rewrite <- !app_assoc. simpl.
    repeat split; congruence.
Qed.

(** ** Popping what was pushed *)

Lemma popValue_lookup {T} `{HighsDataStack.Storable T} st p (x : T) :
  HighsDataStack.position (reductionValues st) = S p →
  HighsDataStack.data (reductionValues st) !! p = Some (HighsDataStack.store x) →
  popValue st
  = Ok (x, set_reductionValues
             (HighsDataStack.mk (HighsDataStack.data (reductionValues st)) p) st).
Proof.
  intros Hpos Hp. unfold popValue, HighsDataStack.pop.
  by rewrite Hpos, Hp, HighsDataStack.load_store.
Qed.

(** Rewrite the next [popValue] of the goal, which reads slot [p]. *)
Ltac pop_under p Hat :=
  erewrite (popValue_lookup _ p); simpl;
  [ | f_equal; lia
    | first [ by apply Hat
            | by rewrite <- (Hat 0%nat _ eq_refl), Nat.add_0_r ] ].

Section ReplayFacts.
Context `{ReductionUndo}.
Variable feastol : double.

(** With the entries of [r] just under the cursor, the switch arm for
    the tag of [r] pops them all, top first, hands the descriptor and
    the payloads to the per-kind undo in their roles, and leaves the
    cursor under the lowest entry of [r]. *)
Lemma undoReduction_pops r st pre post solution basis :
  HighsDataStack.data (reductionValues st) = pre ++ pushOrder r ++ post →
  HighsDataStack.position (reductionValues st)
    = (length pre + length (pushOrder r))%nat →
  undoReduction feastol (tagOf r) st solution basis
  = Ok (scratchAfter r (cursorAt (length pre) st),
        applyUndo feastol r (solution, basis)).
Proof.
  intros Hdata Hpos.
  assert (Hat : ∀ k e, pushOrder r !! k = Some e →
            HighsDataStack.data (reductionValues st) !! (length pre + k)%nat
            = Some e).
  { intros k e Hk. rewrite Hdata, lookup_app_r by lia.
    replace (length pre + k - length pre)%nat with k by lia.
    by apply lookup_app_l_Some. }
  destruct st as [[data pos] tags ci ri rv cv nc nr].
  simpl in Hdata, Hpos, Hat. subst pos.
  destruct r; simpl in *; unfold cursorAt; simpl;
    try pop_under (length pre + 2)%nat Hat;
    try pop_under (length pre + 1)%nat Hat;
    pop_under (length pre) Hat; reflexivity.
Qed.

Lemma replayed_snoc log r sb :
  replayed feastol (log ++ [r]) sb
  = replayed feastol log (applyUndo feastol r sb).
Proof. unfold replayed. by rewrite rev_app_distr. Qed.

Lemma scratchAfter_frame r st :
  reductionValues (scratchAfter r st) = reductionValues st ∧
  reductions (scratchAfter r st) = reductions st ∧
  origColIndex (scratchAfter r st) = origColIndex st ∧
  origRowIndex (scratchAfter r st) = origRowIndex st ∧
  origNumCol (scratchAfter r st) = origNumCol st ∧
  origNumRow (scratchAfter r st) = origNumRow st.
Proof. by destruct r. Qed.

Lemma undoUntilLoop_replays log k n st sb :
  Logged st log →
  (k ≤ n ≤ length log)%nat →
  HighsDataStack.position (reductionValues st)
    = length (take n log ≫= pushOrder) →
  ∃ st',
    undoUntilLoop feastol (Z.of_nat k) n st sb
      = Ok (st', replayed feastol (drop k (take n log)) sb) ∧
    SameRecord st st' ∧
    HighsDataStack.position (reductionValues st')
      = length (take k log ≫= pushOrder).
Proof.
  intros [Htags Hdata]. revert st sb Htags Hdata.
  induction n as [|i IH]; intros st sb Htags Hdata Hkn Hpos; simpl.
  - assert (k = 0%nat) as -> by lia. simpl.
    exists st. by rewrite take_0 in Hpos.
  - destruct (Z.leb_spec (Z.of_nat k) (Z.of_nat i)) as [Hki|Hki].
    + destruct (lookup_lt_is_Some_2 log i) as [r Hr]; [lia|].
      rewrite (at_Ok _ _ (tagOf r)) by (by rewrite Htags, list_lookup_fmap, Hr).
      simpl.
      rewrite (take_S_r _ _ _ Hr), bind_app, length_app in Hpos.
      simpl in Hpos. rewrite app_nil_r in Hpos.
      rewrite (undoReduction_pops r st (take i log ≫= pushOrder)
                 (drop (S i) log ≫= pushOrder)); [|  | done].
      2:{ rewrite Hdata. rewrite <- (take_drop i log) at 1.
          rewrite bind_app. f_equal.
          rewrite (drop_S _ _ _ Hr). simpl. done. }
      simpl.
      destruct (scratchAfter_frame r
                  (cursorAt (length (take i log ≫= pushOrder)) st))
        as (Hrv & Hred & Hci & Hri & Hnc & Hnr).
      destruct (IH (scratchAfter r
                      (cursorAt (length (take i log ≫= pushOrder)) st))
                   (applyUndo feastol r (sb.1, sb.2)))
        as (st' & Hrun & Hsame & Hpos'); [by rewrite Hred| |lia| |].
      * by rewrite Hrv.
      * by rewrite Hrv.
      * exists st'. split; [|split; [|done]].
        -- rewrite Hrun. f_equal. f_equal.
           rewrite (take_S_r _ _ _ Hr), drop_app_le
             by (rewrite length_take; lia).
           rewrite replayed_snoc. by destruct sb.
        -- destruct Hsame as (? & ? & ? & ? & ? & ?).
           unfold SameRecord. rewrite Hrv, Hred, Hci, Hri, Hnc, Hnr in *.
           done.
    + assert (k = S i) as -> by lia.
      exists st. rewrite drop_ge by (rewrite length_take; lia).
      done.
Qed.
End ReplayFacts.

(** ** Expansion to the original index space *)

Lemma expandLoop_moves {A} (index : list Z) (n : nat) (v : list A) :
  (n ≤ length index)%nat →
  StrictlyIncreasing index → AboveDiagonal index →
  (∀ i x, index !! i = Some x → x < Z.of_nat (length v)) →
  ∃ v', expandLoop index n v = Ok v' ∧ length v' = length v ∧
    (∀ i x, (i < n)%nat → index !! i = Some x → v' !! Z.to_nat x = v !! i) ∧
    (∀ j, (∀ i x, (i < n)%nat → index !! i = Some x → Z.to_nat x ≠ j) →
          v' !! j = v !! j).
Proof.
  intros Hn Hinc Hdiag. revert v Hn.
  induction n as [|i IH]; intros v Hn Hlt; simpl.
  - exists v. split; [done|]. split; [done|]. split; [intros; lia | done].
  - destruct (lookup_lt_is_Some_2 index i) as [oi Hoi]; [lia|].
    pose proof (Hdiag _ _ Hoi) as Hge. pose proof (Hlt _ _ Hoi) as Hoilt.
    destruct (lookup_lt_is_Some_2 v i) as [x Hx]; [lia|].
    rewrite (at_Ok _ _ _ Hoi). simpl.
    destruct (Z.leb_spec (Z.of_nat i) oi) as [_|]; [simpl|lia].
    rewrite (at_Ok _ _ _ Hx). simpl.
    rewrite assign_Ok by lia. simpl.
    destruct (IH (<[Z.to_nat oi := x]> v)) as (v' & Hrun & Hlen & Hmov & Hfr);
      [lia | by rewrite length_insert |].
    rewrite length_insert in Hlen.
    exists v'. split; [done|]. split; [done|]. split.
    + intros i' x' Hi' Hx'. destruct (decide (i' = i)) as [->|Hne].
      * rewrite Hoi in Hx'. injection Hx' as <-.
        rewrite Hfr.
        -- rewrite list_lookup_insert_eq by lia. done.
        -- intros i'' x'' Hlt'' Hx'' Heq.
           pose proof (Hinc _ _ _ _ Hx'' Hoi Hlt'').
           pose proof (Hdiag _ _ Hx''). lia.
      * rewrite (Hmov i' x') by (done || lia).
        apply list_lookup_insert_ne.
        pose proof (Hdiag _ _ Hoi). lia.
    + intros j Hj. rewrite Hfr.
      * apply list_lookup_insert_ne. apply (Hj i); [lia|done].
      * intros i' x' Hi' Hx'. apply (Hj i'); [lia|done].
Qed.

Lemma expandLoop2_both {A B} (index : list Z) (n : nat)
    (s s' : list A) (d d' : list B) :
  expandLoop index n s = Ok s' → expandLoop index n d = Ok d' →
  expandLoop2 index n s d = Ok (s', d').
Proof.
  revert s d. induction n as [|i IH]; simpl; intros s d Hs Hd.
  - congruence.
  - res_inv.
    repeat match goal with
    | Heq : ?m = Ok _ |- context [?m] => rewrite Heq; simpl
    | Heq1 : ?m = Ok ?a, Heq2 : ?m = Ok ?b |- _ =>
        assert (a = b) by congruence; subst b; clear Heq2
    end.
    by apply IH.
Qed.

Lemma vresize_Ok {A} (d : A) (n : Z) (v : list A) :
  0 ≤ n → vresize d n v = Ok (resize (Z.to_nat n) d v).
Proof. intros Hn. unfold vresize. by destruct (Z.ltb_spec n 0); [lia|]. Qed.

Lemma expandLoop_Expanded {A} (index : list Z) (origNum : Z) (d : A) (v : list A) :
  ValidIndexMap index origNum →
  ∃ v', expandLoop index (length index) (resize (Z.to_nat origNum) d v) = Ok v' ∧
        Expanded index origNum d v v'.
Proof.
  intros (Hinc & Hdiag & Hnum & Hlt).
  destruct (expandLoop_moves index (length index)
              (resize (Z.to_nat origNum) d v))
    as (v' & Hrun & Hlen & Hmov & _); [done..| |].
  { intros i x Hx. rewrite length_resize. specialize (Hlt _ _ Hx). lia. }
  exists v'. split; [done|]. rewrite length_resize in Hlen. split; [done|].
  intros i x Hx. apply Hmov; [|done]. by eapply lookup_lt_Some.
Qed.

(** The maps [initializeIndexMaps] leaves are identity maps, and
    identity maps are valid. *)
Lemma initializeIndexMaps_identity numRow numCol st :
  0 ≤ numRow → 0 ≤ numCol →
  IdentityMap (origColIndex (initializeIndexMaps numRow numCol st))
              (origNumCol (initializeIndexMaps numRow numCol st)) ∧
  IdentityMap (origRowIndex (initializeIndexMaps numRow numCol st))
              (origNumRow (initializeIndexMaps numRow numCol st)).
Proof.
  intros Hr Hc. simpl.
  split; (split; [rewrite length_fmap, length_seq; lia|]);
    intros i x Hx; rewrite list_lookup_fmap in Hx;
    destruct (seq _ _ !! i) as [j|] eqn:Hj; simplify_eq/=;
    apply lookup_seq in Hj as [-> _]; done.
Qed.

Lemma IdentityMap_valid index origNum :
  IdentityMap index origNum → ValidIndexMap index origNum.
Proof.
  intros [Hlen Hid]. repeat split.
  - intros i j x y Hx Hy Hij. rewrite (Hid _ _ Hx), (Hid _ _ Hy). lia.
  - intros i x Hx. rewrite (Hid _ _ Hx). lia.
  - lia.
  - intros i x Hx. rewrite (Hid _ _ Hx).
    pose proof (lookup_lt_Some _ _ _ Hx). lia.
Qed.

Section ExpansionFacts.
Variable status0 : HighsBasisStatus.t.

(** What the preamble of [undo] and [undoUntil] computes on valid index
    maps. *)
Lemma expandToOriginal_expands st solution basis :
  ValidIndexMap (origColIndex st) (origNumCol st) →
  ValidIndexMap (origRowIndex st) (origNumRow st) →
  ∃ solution' basis',
    expandToOriginal status0 st solution basis = Ok (solution', basis') ∧
    Expanded (origColIndex st) (origNumCol st) double0
      (col_value solution) (col_value solution') ∧
    Expanded (origRowIndex st) (origNumRow st) double0
      (row_value solution) (row_value solution') ∧
    if bool_decide (length (col_dual solution) = length (col_value solution))
    then
      Expanded (origColIndex st) (origNumCol st) double0
        (col_dual solution) (col_dual solution') ∧
      Expanded (origRowIndex st) (origNumRow st) double0
        (row_dual solution) (row_dual solution') ∧
      Expanded (origColIndex st) (origNumCol st) status0
        (col_status basis) (col_status basis') ∧
      Expanded (origRowIndex st) (origNumRow st) status0
        (row_status basis) (row_status basis')
    else
      col_dual solution' = col_dual solution ∧
      row_dual solution' = row_dual solution ∧
      basis' = basis.
Proof.
  intros Hcol Hrow.
  pose proof Hcol as (_ & _ & Hnc & _). pose proof Hrow as (_ & _ & Hnr & _).
  destruct (expandLoop_Expanded _ _ double0 (col_value solution) Hcol)
    as (colv & Hcolv & ?).
  destruct (expandLoop_Expanded _ _ double0 (row_value solution) Hrow)
    as (rowv & Hrowv & ?).
  destruct (expandLoop_Expanded _ _ double0 (col_dual solution) Hcol)
    as (cold & Hcold & ?).
  destruct (expandLoop_Expanded _ _ double0 (row_dual solution) Hrow)
    as (rowd & Hrowd & ?).
  destruct (expandLoop_Expanded _ _ status0 (col_status basis) Hcol)
    as (cols & Hcols & ?).
  destruct (expandLoop_Expanded _ _ status0 (row_status basis) Hrow)
    as (rows & Hrows & ?).
  unfold expandToOriginal.
  rewrite !vresize_Ok by done. simpl.
  rewrite Hcolv. simpl. rewrite Hrowv. simpl.
  case_bool_decide.
  - rewrite (expandLoop2_both _ _ _ _ _ _ Hcols Hcold). simpl.
    rewrite (expandLoop2_both _ _ _ _ _ _ Hrows Hrowd). simpl.
    by eexists _, _.
  - by eexists _, _.
Qed.
End ExpansionFacts.

Lemma rewind_cursorAt p st : rewind (cursorAt p st) = rewind st.
Proof. by destruct st. Qed.

Section EntryPoints.
Context `{ReductionUndo}.
Variable status0 : HighsBasisStatus.t.
Variable feastol : double.

Lemma undoUntilLoop_0 n st sb :
  undoUntilLoop feastol 0 n st sb = undoLoop feastol n st sb.
Proof.
  revert st sb. induction n as [|i IH]; intros st sb; simpl; [done|].
  destruct (Z.leb_spec 0 (Z.of_nat i)) as [_|]; [|lia].
  destruct (at_ (reductions st) (Z.of_nat i)) as [tag|]; simpl; [|done].
  destruct (undoReduction feastol tag st sb.1 sb.2) as [[st1 sb1]|]; simpl;
    [apply IH | done].
Qed.

Lemma undoUntil_0 st solution basis :
  undoUntil status0 st solution basis feastol 0
  = undo status0 st solution basis feastol.
Proof.
  unfold undoUntil, undo. repeat case_bool_decide; try done.
  destruct (expandToOriginal status0 (rewind st) solution basis); simpl;
    [apply undoUntilLoop_0 | done].
Qed.

(** A call that passes the two shape guards is the expansion followed
    by the replay loop, both on the rewound stack. *)
Lemma undo_accepted st solution basis :
  length (col_value solution) = length (origColIndex st) →
  length (row_value solution) = length (origRowIndex st) →
  undo status0 st solution basis feastol
  = (sb ← expandToOriginal status0 st solution basis;
     undoLoop feastol (length (reductions st)) (rewind st) sb).
Proof.
  intros Hc Hr. unfold undo. simpl.
  rewrite !bool_decide_eq_false_2 by (by intros ?). by destruct st.
Qed.

Lemma undoUntil_accepted st solution basis numReductions :
  length (col_value solution) = length (origColIndex st) →
  length (row_value solution) = length (origRowIndex st) →
  undoUntil status0 st solution basis feastol numReductions
  = (sb ← expandToOriginal status0 st solution basis;
     undoUntilLoop feastol numReductions (length (reductions st)) (rewind st) sb).
Proof.
  intros Hc Hr. unfold undoUntil. simpl.
  rewrite !bool_decide_eq_false_2 by (by intros ?). by destruct st.
Qed.

Lemma undo_rejected st solution basis :
  length (col_value solution) ≠ length (origColIndex st) ∨
  length (row_value solution) ≠ length (origRowIndex st) →
  undo status0 st solution basis feastol = Ok (rewind st, (solution, basis)).
Proof.
  intros Hbad. unfold undo. simpl. repeat case_bool_decide; try done.
  by destruct Hbad.
Qed.

Lemma undoUntil_rejected st solution basis numReductions :
  length (col_value solution) ≠ length (origColIndex st) ∨
  length (row_value solution) ≠ length (origRowIndex st) →
  undoUntil status0 st solution basis feastol numReductions
  = Ok (rewind st, (solution, basis)).
Proof.
  intros Hbad. unfold undoUntil. simpl. repeat case_bool_decide; try done.
  by destruct Hbad.
Qed.
End EntryPoints.

Lemma expandLoop_identity {A} (index : list Z) (n : nat) (v : list A) :
  (∀ i x, index !! i = Some x → x = Z.of_nat i) →
  (n ≤ length index)%nat → (n ≤ length v)%nat →
  expandLoop index n v = Ok v.
Proof.
  intros Hid. induction n as [|i IH]; intros Hn Hv; simpl; [done|].
  destruct (lookup_lt_is_Some_2 index i) as [oi Hoi]; [lia|].
  rewrite (Hid _ _ Hoi) in Hoi.
  destruct (lookup_lt_is_Some_2 v i) as [x Hx]; [lia|].
  rewrite (at_Ok _ _ _ Hoi). simpl.
  destruct (Z.leb_spec (Z.of_nat i) (Z.of_nat i)) as [_|]; [simpl|lia].
  rewrite (at_Ok _ _ _ Hx). simpl.
  rewrite assign_Ok by lia. simpl.
  rewrite Nat2Z.id, list_insert_id by done. apply IH; lia.
Qed.

(** ** The claims *)

Lemma rev_bind {A B} (f : A → list B) (l : list A) :
  rev (l ≫= f) = rev l ≫= (λ x, rev (f x)).
Proof.
  induction l as [|x l IH]; [done|].
  rewrite bind_cons, rev_app_distr, IH. cbn [rev].
  rewrite bind_app, bind_cons. simpl. by rewrite app_nil_r.
Qed.

(** With the cursor of [s] at the top and that of [s'] on top of the
    entries of the first [k] records, the cursor has passed over the
    entries of the later records, the last record first and each
    record's entries in the inverse of their push order. *)
Lemma poppedBetween_records log k s s' :
  HighsDataStack.data s = log ≫= pushOrder →
  HighsDataStack.position s = length (log ≫= pushOrder) →
  HighsDataStack.position s' = length (take k log ≫= pushOrder) →
  poppedBetween s s' = rev (drop k log) ≫= (λ r, rev (pushOrder r)).
Proof.
  intros Hdata Hpos Hpos'. unfold poppedBetween.
  rewrite <- rev_bind. f_equal. rewrite Hdata, Hpos, Hpos'.
  assert (Hsplit : log ≫= pushOrder
            = (take k log ≫= pushOrder) ++ (drop k log ≫= pushOrder))
    by (by rewrite <- bind_app, take_drop).
  rewrite Hsplit, drop_app_length, length_app.
  replace (length (take k log ≫= pushOrder)
           + length (drop k log ≫= pushOrder)
           - length (take k log ≫= pushOrder))%nat
    with (length (drop k log ≫= pushOrder)) by lia.
  apply firstn_all.
Qed.

(** C1.  [undo] and [undoUntil] pop the value stack in the exact
    inverse of the order in which the recording operations push.  After
    any sequence of successful recording calls on an empty record, the
    state holds one reduction per call, of the call's kind and with the
    call's translated indices and slices in their roles; its entries
    lie on the stack in push order: the descriptor, then the row
    nonzeros, then the column nonzeros, as far as the kind has them
    ([pushOrder]).  A call of [undo] that passes the shape guards then
    hands every recorded reduction, the last recorded first, to its
    per-kind undo with exactly the descriptor, row nonzeros and column
    nonzeros recorded, and a call of [undoUntil] does so for the
    records from the checkpoint on; the entries the read cursor passes
    over are those of the replayed records, last record first, each
    record's entries in the inverse of its push order: column nonzeros,
    then row nonzeros, then the descriptor. *)
Theorem undo_pops_inverse_of_push `{ReductionUndo}
    (status0 : HighsBasisStatus.t) (feastol : double)
    (cs : list RecordingCall) (st0 st : HighsPostsolveStack)
    (solution : HighsSolution) (basis : HighsBasis)
    (expanded : HighsSolution * HighsBasis) :
  reductions st0 = [] →
  HighsDataStack.data (reductionValues st0) = [] →
  recordAll cs st0 = Ok st →
  length (col_value solution) = length (origColIndex st) →
  length (row_value solution) = length (origRowIndex st) →
  expandToOriginal status0 st solution basis = Ok expanded →
  ∃ log,
    Forall2 (StoresOriginalIndices st0) cs log ∧
    reductions st = tagOf <$> log ∧
    HighsDataStack.data (reductionValues st) = log ≫= pushOrder ∧
    (∃ st',
       undo status0 st solution basis feastol
         = Ok (st', replayed feastol log expanded) ∧
       poppedBetween (reductionValues (rewind st)) (reductionValues st')
         = rev log ≫= (λ r, rev (pushOrder r))) ∧
    (∀ k, (k ≤ length log)%nat →
       ∃ st',
         undoUntil status0 st solution basis feastol (Z.of_nat k)
           = Ok (st', replayed feastol (drop k log) expanded) ∧
         poppedBetween (reductionValues (rewind st)) (reductionValues st')
           = rev (drop k log) ≫= (λ r, rev (pushOrder r))).
Proof.
  intros Htags0 Hdata0 Hrec Hc Hr Hexp.
  apply recordAll_appends in Hrec as (log & Hall & Ht & Hd & _).
  rewrite Htags0 in Ht. rewrite Hdata0 in Hd. simpl in Ht, Hd.
  exists log. split; [done|]. split; [done|]. split; [done|].
  assert (Hrun : ∀ k, (k ≤ length log)%nat →
    ∃ st',
      undoUntil status0 st solution basis feastol (Z.of_nat k)
        = Ok (st', replayed feastol (drop k log) expanded) ∧
      poppedBetween (reductionValues (rewind st)) (reductionValues st')
        = rev (drop k log) ≫= (λ r, rev (pushOrder r))).
  { intros k Hk.
    destruct (undoUntilLoop_replays feastol log k (length log)
                (rewind st) expanded) as (st' & Hrun & _ & Hpos).
    - split; by destruct st.
    - lia.
    - rewrite firstn_all. destruct st as [[data pos] ? ? ? ? ? ? ?].
      simpl in *. by rewrite Hd.
    - exists st'. rewrite firstn_all in Hrun. split.
      + rewrite undoUntil_accepted, Hexp by done. simpl.
        rewrite <- Hrun. f_equal. by rewrite Ht, length_fmap.
      + apply poppedBetween_records; [| |done];
          destruct st as [[data pos] ? ? ? ? ? ? ?]; simpl in *;
          by rewrite Hd. }
  split; [|exact Hrun].
  destruct (Hrun 0%nat) as (st' & Hrun0 & Hpop); [lia|].
  exists st'. by rewrite <- undoUntil_0.
Qed.

(** C2.  Every recording operation stores original-space indices: the
    row and column indices of the descriptor and of the payloads are the
    passed ones sent through [origRowIndex] and [origColIndex].  The one
    exception is [redundantRow], which stores the row it is given and
    never reads [origRowIndex]. *)
Theorem recording_translates_indices (c : RecordingCall)
    (st st' : HighsPostsolveStack) :
  record c st = Ok st' →
  (∃ r, StoresOriginalIndices st c r ∧
        HighsDataStack.data (reductionValues st')
        = HighsDataStack.data (reductionValues st) ++ pushOrder r) ∧
  ∀ row, redundantRow row st
         = Ok (push_back kRedundantRow
                 (pushValue {| RedundantRow.row := row |} st)).
Proof.
  intros Hrec. split; [|done].
  apply record_appends in Hrec as (r & Hidx & Hdata & _). by exists r.
Qed.

(** C8.  [duplicateRow] stores [origRowIndex[duplicateRow]] in the field
    [duplicateRow] and [origRowIndex[row]] in the field [row], and each
    tightening flag in the field of its own name, although the
    parameter list has [rowUpperTightened] before [rowLowerTightened]. *)
Theorem duplicateRow_fields (row : Z) (rowUpperTightened rowLowerTightened : bool)
    (duplicateRow' : Z) (duplicateRowScale : double)
    (st : HighsPostsolveStack) (origRow origDuplicateRow : Z) :
  at_ (origRowIndex st) row = Ok origRow →
  at_ (origRowIndex st) duplicateRow' = Ok origDuplicateRow →
  duplicateRow row rowUpperTightened rowLowerTightened duplicateRow'
    duplicateRowScale st
  = Ok (push_back kDuplicateRow
          (pushValue
             {| DuplicateRow.duplicateRowScale := duplicateRowScale;
                DuplicateRow.duplicateRow := origDuplicateRow;
                DuplicateRow.row := origRow;
                DuplicateRow.rowLowerTightened := rowLowerTightened;
                DuplicateRow.rowUpperTightened := rowUpperTightened |} st)).
Proof. intros Hrow Hdup. unfold duplicateRow. by rewrite Hdup, Hrow. Qed.

(** C9.  The three FixedCol recording operations assert that [fixValue]
    is finite.  On a non-finite [fixValue] the assertion fails, whatever
    the other arguments.  On a finite one the assertion holds and the
    operation records a FixedCol descriptor of type LOWER, UPPER and
    NONBASIC respectively, followed by the column nonzeros, under the
    tag [kFixedCol]. *)
Theorem fixedCol_asserts_finite (col : Z) (fixValue colCost : double)
    (colVec : list Nonzero) (st : HighsPostsolveStack) :
  (isfinite fixValue = false →
     fixedColAtLower col fixValue colCost colVec st = Fail AssertionFailed ∧
     fixedColAtUpper col fixValue colCost colVec st = Fail AssertionFailed ∧
     removedFixedCol col fixValue colCost colVec st = Fail AssertionFailed) ∧
  (isfinite fixValue = true →
     fixedColAtLower col fixValue colCost colVec st ≠ Fail AssertionFailed ∧
     fixedColAtUpper col fixValue colCost colVec st ≠ Fail AssertionFailed ∧
     removedFixedCol col fixValue colCost colVec st ≠ Fail AssertionFailed ∧
     ∀ origCol cv,
       Translated (origRowIndex st) colVec cv →
       at_ (origColIndex st) col = Ok origCol →
       let recorded fixType :=
         Ok (push_back kFixedCol
               (pushValue cv
                  (pushValue
                     {| FixedCol.fixValue := fixValue;
                        FixedCol.colCost := colCost;
                        FixedCol.col := origCol;
                        FixedCol.fixType := fixType |}
                     (set_colValues cv st)))) in
       fixedColAtLower col fixValue colCost colVec st
         = recorded HighsBasisStatus.LOWER ∧
       fixedColAtUpper col fixValue colCost colVec st
         = recorded HighsBasisStatus.UPPER ∧
       removedFixedCol col fixValue colCost colVec st
         = recorded HighsBasisStatus.NONBASIC).
Proof.
  unfold fixedColAtLower, fixedColAtUpper, removedFixedCol.
  split; intros Hfin; rewrite Hfin; simpl; [done|].
  assert (Hnoassert : ∀ index acc, ∀ k : list Nonzero → Res HighsPostsolveStack,
            (∀ v, k v ≠ Fail AssertionFailed) →
            emplaceAll index colVec acc ≫= k ≠ Fail AssertionFailed).
  { intros index acc k Hk. revert acc.
    induction colVec as [|nz vec IH]; simpl; intros acc; [apply Hk|].
    unfold at_. destruct (nz.1 <? 0); simpl; [done|].
    destruct (index !! Z.to_nat nz.1); simpl; [apply IH | done]. }
  assert (Hat : ∀ k : Z → Res HighsPostsolveStack,
            (∀ v, k v ≠ Fail AssertionFailed) →
            at_ (origColIndex st) col ≫= k ≠ Fail AssertionFailed).
  { intros k Hk. unfold at_. destruct (col <? 0); simpl; [done|].
    destruct (origColIndex st !! Z.to_nat col); simpl; [apply Hk | done]. }
  split; [apply Hnoassert; intros v; apply (Hat (λ _, _)); intros o; done|].
  split; [apply Hnoassert; intros v; apply (Hat (λ _, _)); intros o; done|].
  split; [apply Hnoassert; intros v; apply (Hat (λ _, _)); intros o; done|].
  intros origCol cv Htr Hcol.
  rewrite (Translated_emplaceAll _ _ [] cv) by done. simpl.
  rewrite Hcol. done.
Qed.

Section EntryPointClaims.
Context `{ReductionUndo}.
Variable status0 : HighsBasisStatus.t.
Variable feastol : double.

(** C4.  A solution whose [col_value] length is not the reduced column
    count, or whose [row_value] length is not the reduced row count, is
    rejected silently: [undo] and [undoUntil] return normally and hand
    back the solution and the basis they were given. *)
Theorem shape_mismatch_is_noop (st : HighsPostsolveStack)
    (solution : HighsSolution) (basis : HighsBasis) (numReductions : Z) :
  length (col_value solution) ≠ length (origColIndex st) ∨
  length (row_value solution) ≠ length (origRowIndex st) →
  ∃ st',
    undo status0 st solution basis feastol = Ok (st', (solution, basis)) ∧
    undoUntil status0 st solution basis feastol numReductions
      = Ok (st', (solution, basis)).
Proof.
  intros Hbad. exists (rewind st).
  by rewrite undo_rejected, undoUntil_rejected.
Qed.

(** C10.  [undo] and [undoUntil] rewind the value stack before anything
    else: their result does not depend on where the read cursor stood,
    and a call rejected for shape mismatch, which leaves solution and
    basis untouched, still returns with the cursor at the top of the
    stack. *)
Theorem rewind_precedes_shape_guard (st : HighsPostsolveStack)
    (solution : HighsSolution) (basis : HighsBasis) (numReductions : Z) :
  length (col_value solution) ≠ length (origColIndex st) ∨
  length (row_value solution) ≠ length (origRowIndex st) →
  undo status0 st solution basis feastol
    = Ok (rewind st, (solution, basis)) ∧
  undoUntil status0 st solution basis feastol numReductions
    = Ok (rewind st, (solution, basis)) ∧
  HighsDataStack.position (reductionValues (rewind st))
    = length (HighsDataStack.data (reductionValues st)) ∧
  (∀ p, undo status0 (cursorAt p st) solution basis feastol
        = undo status0 st solution basis feastol) ∧
  (∀ p, undoUntil status0 (cursorAt p st) solution basis feastol numReductions
        = undoUntil status0 st solution basis feastol numReductions).
Proof.
  intros Hbad. split; [by apply undo_rejected|].
  split; [by apply undoUntil_rejected|]. split; [done|].
  split; intros p; unfold undo, undoUntil; by rewrite rewind_cursorAt.
Qed.
End EntryPointClaims.

Lemma Expanded_reduced {A} (index : list Z) (origNum : Z) (d : A) (v v' : list A) :
  WithinOriginal index origNum → AboveDiagonal index →
  length v = length index →
  Expanded index origNum d v v' →
  ∀ i x, index !! i = Some x → v' !! Z.to_nat x = v !! i.
Proof.
  intros Hlt Hdiag Hlen [_ Hmov] i x Hx. rewrite (Hmov _ _ Hx).
  pose proof (Hlt _ _ Hx). pose proof (Hdiag _ _ Hx).
  pose proof (lookup_lt_Some _ _ _ Hx).
  apply lookup_resize; lia.
Qed.

Section ExpansionClaims.
Context `{ReductionUndo}.
Variable status0 : HighsBasisStatus.t.
Variable feastol : double.

(** C3.  On index maps that are strictly increasing, never below the
    diagonal and within the original dimensions, the preamble of [undo]
    and [undoUntil] succeeds (no assertion fails, no subscript leaves
    its vector) and reads every source slot before overwriting it:
    afterwards slot [origColIndex[i]] of [col_value] holds what slot [i]
    held before the call, and likewise for [row_value] through
    [origRowIndex]; the replay loop then runs on the expanded arrays. *)
Theorem expansion_reads_before_overwriting (st : HighsPostsolveStack)
    (solution : HighsSolution) (basis : HighsBasis) :
  ValidIndexMap (origColIndex st) (origNumCol st) →
  ValidIndexMap (origRowIndex st) (origNumRow st) →
  length (col_value solution) = length (origColIndex st) →
  length (row_value solution) = length (origRowIndex st) →
  ∃ solution' basis',
    expandToOriginal status0 st solution basis = Ok (solution', basis') ∧
    undo status0 st solution basis feastol
      = undoLoop feastol (length (reductions st)) (rewind st)
          (solution', basis') ∧
    (∀ numReductions,
       undoUntil status0 st solution basis feastol numReductions
       = undoUntilLoop feastol numReductions (length (reductions st))
           (rewind st) (solution', basis')) ∧
    (∀ i x, origColIndex st !! i = Some x →
            col_value solution' !! Z.to_nat x = col_value solution !! i) ∧
    (∀ i x, origRowIndex st !! i = Some x →
            row_value solution' !! Z.to_nat x = row_value solution !! i).
Proof.
  intros Hcol Hrow Hclen Hrlen.
  destruct (expandToOriginal_expands status0 st solution basis Hcol Hrow)
    as (solution' & basis' & Hrun & Hcv & Hrv & _).
  exists solution', basis'. split; [done|].
  split; [by rewrite undo_accepted, Hrun|].
  split; [by intros k; rewrite undoUntil_accepted, Hrun|].
  destruct Hcol as (_ & ? & _ & ?), Hrow as (_ & ? & _ & ?).
  split; by eapply Expanded_reduced.
Qed.

(** C6.  Dual-postsolve mode is decided once, on the lengths the caller
    passes: [col_dual], [row_dual], [col_status] and [row_status] are
    expanded to the original dimensions when [col_dual] is as long as
    the (still reduced) [col_value], and are handed back untouched when
    it is not; [col_value] and [row_value] are expanded either way. *)
Theorem dual_arrays_expanded_iff_dual_given (st : HighsPostsolveStack)
    (solution : HighsSolution) (basis : HighsBasis) :
  ValidIndexMap (origColIndex st) (origNumCol st) →
  ValidIndexMap (origRowIndex st) (origNumRow st) →
  length (col_value solution) = length (origColIndex st) →
  length (row_value solution) = length (origRowIndex st) →
  ∃ solution' basis',
    expandToOriginal status0 st solution basis = Ok (solution', basis') ∧
    undo status0 st solution basis feastol
      = undoLoop feastol (length (reductions st)) (rewind st)
          (solution', basis') ∧
    (∀ numReductions,
       undoUntil status0 st solution basis feastol numReductions
       = undoUntilLoop feastol numReductions (length (reductions st))
           (rewind st) (solution', basis')) ∧
    Expanded (origColIndex st) (origNumCol st) double0
      (col_value solution) (col_value solution') ∧
    Expanded (origRowIndex st) (origNumRow st) double0
      (row_value solution) (row_value solution') ∧
    (length (col_dual solution) = length (col_value solution) →
       Expanded (origColIndex st) (origNumCol st) double0
         (col_dual solution) (col_dual solution') ∧
       Expanded (origRowIndex st) (origNumRow st) double0
         (row_dual solution) (row_dual solution') ∧
       Expanded (origColIndex st) (origNumCol st) status0
         (col_status basis) (col_status basis') ∧
       Expanded (origRowIndex st) (origNumRow st) status0
         (row_status basis) (row_status basis')) ∧
    (length (col_dual solution) ≠ length (col_value solution) →
       col_dual solution' = col_dual solution ∧
       row_dual solution' = row_dual solution ∧
       col_status basis' = col_status basis ∧
       row_status basis' = row_status basis).
Proof.
  intros Hcol Hrow Hclen Hrlen.
  destruct (expandToOriginal_expands status0 st solution basis Hcol Hrow)
    as (solution' & basis' & Hrun & Hcv & Hrv & Hdual).
  exists solution', basis'. split; [done|].
  split; [by rewrite undo_accepted, Hrun|].
  split; [by intros k; rewrite undoUntil_accepted, Hrun|].
  split; [done|]. split; [done|].
  case_bool_decide; split; try done.
  intros _. by destruct Hdual as (-> & -> & ->).
Qed.

(** C7, amended.  With an empty record and identity index maps of the
    original dimensions, [undo] hands back solution and basis as given,
    provided that a dual solution, when present ([col_dual] as long as
    [col_value]), comes with [row_dual], [col_status] and [row_status]
    of the lengths of their primal counterparts. *)
Theorem undo_identity_presolve (st : HighsPostsolveStack)
    (solution : HighsSolution) (basis : HighsBasis) :
  reductions st = [] →
  IdentityMap (origColIndex st) (origNumCol st) →
  IdentityMap (origRowIndex st) (origNumRow st) →
  (length (col_dual solution) = length (col_value solution) →
     length (col_status basis) = length (col_value solution) ∧
     length (row_dual solution) = length (row_value solution) ∧
     length (row_status basis) = length (row_value solution)) →
  undo status0 st solution basis feastol = Ok (rewind st, (solution, basis)).
Proof.
  intros Hempty [Hnc Hcid] [Hnr Hrid] Hdual.
  destruct (decide (length (col_value solution) = length (origColIndex st)))
    as [Hclen|]; [|apply undo_rejected; by left].
  destruct (decide (length (row_value solution) = length (origRowIndex st)))
    as [Hrlen|]; [|apply undo_rejected; by right].
  rewrite undo_accepted, Hempty by done. unfold expandToOriginal.
  assert (Hsame : ∀ {A} (d : A) (index : list Z) (n : Z) (v : list A),
            Z.of_nat (length index) = n →
            (∀ i x, index !! i = Some x → x = Z.of_nat i) →
            length v = length index →
            vresize d n v ≫= expandLoop index (length index) = Ok v).
  { intros A d index n v Hn Hid Hlen. rewrite vresize_Ok by lia. simpl.
    rewrite resize_all_alt by lia. apply expandLoop_identity; [done|lia..]. }
  assert (Hsame2 : ∀ {A B} (index : list Z) (v : list A) (w : list B),
            (∀ i x, index !! i = Some x → x = Z.of_nat i) →
            length v = length index → length w = length index →
            expandLoop2 index (length index) v w = Ok (v, w)).
  { intros A B index v w Hid Hv Hw.
    apply expandLoop2_both; apply expandLoop_identity; (done || lia). }
  pose proof (Hsame _ double0 _ _ (col_value solution) Hnc Hcid Hclen) as Hcv.
  pose proof (Hsame _ double0 _ _ (row_value solution) Hnr Hrid Hrlen) as Hrv.
  rewrite !vresize_Ok in * by lia. simpl in *.
  rewrite Hcv. simpl. rewrite Hrv. simpl.
  case_bool_decide as Hd; simpl.
  - destruct (Hdual Hd) as (Hcs & Hrd & Hrs).
    rewrite !resize_all_alt by lia.
    rewrite Hsame2 by (done || lia). simpl.
    rewrite Hsame2 by (done || lia). simpl.
    by destruct solution, basis.
  - by destruct solution, basis.
Qed.
End ExpansionClaims.

(** ** Recorded states hold their log *)

Lemma initialStack_Logged ci ri nc nr : Logged (initialStack ci ri nc nr) [].
Proof. done. Qed.

Lemma record_Logged c st st' log :
  Logged st log → record c st = Ok st' → ∃ r, Logged st' (log ++ [r]).
Proof.
  intros [Htags Hdata] Hrec.
  apply record_appends in Hrec as (r & _ & Hdata' & Htags' & _).
  exists r. split.
  - by rewrite Htags', Htags, fmap_app.
  - rewrite Hdata', Hdata, bind_app. simpl. by rewrite app_nil_r.
Qed.

Lemma recordAll_Logged cs st st' log :
  Logged st log → recordAll cs st = Ok st' →
  ∃ log', length log' = length cs ∧ Logged st' (log ++ log').
Proof.
  revert st log. induction cs as [|c cs IH]; simpl; intros st log Hlog Hrec.
  - injection Hrec as <-. exists []. by rewrite app_nil_r.
  - res_inv. destruct (record_Logged _ _ _ _ Hlog Ha) as (r & Hlog1).
    destruct (IH _ _ Hlog1 Hrec) as (log' & Hlen & Hlog').
    exists (r :: log'). simpl. split; [by rewrite Hlen|].
    by rewrite <- app_assoc in Hlog'.
Qed.

Section CheckpointClaim.
Context `{ReductionUndo}.
Variable status0 : HighsBasisStatus.t.
Variable feastol : double.

(** C5.  On a state that holds the log [log], a call
    [undoUntil(solution, basis, feastol, k)] with [0 <= k <=
    numReductions()] that passes the shape guards replays exactly the
    records of index [k] and above, last record first, on the expanded
    solution and basis; it stops with the read cursor on top of the
    entries of the first [k] records and leaves the tags in place, so
    [numReductions()] is unchanged; and with [k = 0] it is [undo]. *)
Theorem undoUntil_replays_from_checkpoint (st : HighsPostsolveStack)
    (log : list Reduction) (solution : HighsSolution) (basis : HighsBasis)
    (expanded : HighsSolution * HighsBasis) (k : Z) :
  Logged st log →
  length (col_value solution) = length (origColIndex st) →
  length (row_value solution) = length (origRowIndex st) →
  expandToOriginal status0 st solution basis = Ok expanded →
  0 ≤ k ≤ Z.of_nat (numReductions st) →
  ∃ st',
    undoUntil status0 st solution basis feastol k
      = Ok (st', replayed feastol (drop (Z.to_nat k) log) expanded) ∧
    reductions st' = reductions st ∧
    numReductions st' = numReductions st ∧
    HighsDataStack.position (reductionValues st')
      = length (take (Z.to_nat k) log ≫= pushOrder) ∧
    undoUntil status0 st solution basis feastol 0
      = undo status0 st solution basis feastol.
Proof.
  intros Hlog Hclen Hrlen Hexp Hk.
  pose proof Hlog as [Htags Hdata].
  assert (Hlen : length (reductions st) = length log)
    by (by rewrite Htags, length_fmap).
  unfold numReductions in *.
  destruct (undoUntilLoop_replays feastol log (Z.to_nat k) (length log)
              (rewind st) expanded)
    as (st' & Hrun & (Htags' & _) & Hpos).
  - by destruct st.
  - lia.
  - rewrite firstn_all. destruct st as [[data pos] ? ? ? ? ? ? ?].
    simpl in *. by rewrite Hdata.
  - exists st'. rewrite Z2Nat.id, firstn_all in Hrun by lia.
    split; [rewrite undoUntil_accepted, Hexp, Hlen by done; exact Hrun|].
    split; [by rewrite Htags'; destruct st|].
    split; [by rewrite Htags'; destruct st|].
    split; [done | apply undoUntil_0].
Qed.
End CheckpointClaim.

(** ** The claims on sample data *)

(** Close goals about a short concrete index map by going through its
    slots. *)
Ltac index_map_cases :=
  repeat split;
  repeat (let i := fresh "i" in intros [|[|[|i]]]);
  intros; simplify_eq/=; lia.

Lemma sampleStack_cols_valid : ValidIndexMap [1; 3] 4.
Proof. index_map_cases. Qed.

Lemma sampleStack_rows_valid : ValidIndexMap [0; 2] 3.
Proof. index_map_cases. Qed.

Lemma sampleRecorded_Logged : Logged sampleRecorded sampleLog.
Proof. split; reflexivity. Qed.

Lemma sampleRecorded_recorded : recordAll sampleCalls sampleStack = Ok sampleRecorded.
Proof. reflexivity. Qed.

Lemma undo_pops_inverse_of_push_witness :
  recordAll sampleCalls sampleStack = Ok sampleRecorded ∧
  expandToOriginal HighsBasisStatus.LOWER sampleRecorded sampleSolution
    sampleBasis = Ok sampleExpanded ∧
  ∃ log,
    Forall2 (StoresOriginalIndices sampleStack) sampleCalls log ∧
    reductions sampleRecorded = tagOf <$> log ∧
    HighsDataStack.data (reductionValues sampleRecorded) = log ≫= pushOrder ∧
    (∃ st',
       undo (H := sampleUndo) HighsBasisStatus.LOWER sampleRecorded
         sampleSolution sampleBasis one
         = Ok (st', replayed (H := sampleUndo) one log sampleExpanded) ∧
       poppedBetween (reductionValues (rewind sampleRecorded))
         (reductionValues st')
         = rev log ≫= (λ r, rev (pushOrder r))) ∧
    (∀ k, (k ≤ length log)%nat →
       ∃ st',
         undoUntil (H := sampleUndo) HighsBasisStatus.LOWER sampleRecorded
           sampleSolution sampleBasis one (Z.of_nat k)
           = Ok (st', replayed (H := sampleUndo) one (drop k log)
                        sampleExpanded) ∧
         poppedBetween (reductionValues (rewind sampleRecorded))
           (reductionValues st')
           = rev (drop k log) ≫= (λ r, rev (pushOrder r))).
Proof.
  split; [reflexivity|]. split; [reflexivity|].
  exact (undo_pops_inverse_of_push (H := sampleUndo) HighsBasisStatus.LOWER
           one sampleCalls sampleStack sampleRecorded sampleSolution
           sampleBasis sampleExpanded eq_refl eq_refl eq_refl eq_refl eq_refl
           eq_refl).
Defined.

Lemma recording_translates_indices_witness :
  let c := CallForcingRow 1 [(0, one); (1, two)] three RowType.Leq in
  let st' :=
    push_back kForcingRow
      (pushValue [(1, one); (3, two)]
         (pushValue (ForcingRow.mk three 2 RowType.Leq)
            (set_rowValues [(1, one); (3, two)] sampleStack))) in
  record c sampleStack = Ok st' ∧
  (∃ r, StoresOriginalIndices sampleStack c r ∧
        HighsDataStack.data (reductionValues st')
        = HighsDataStack.data (reductionValues sampleStack) ++ pushOrder r) ∧
  ∀ row, redundantRow row sampleStack
         = Ok (push_back kRedundantRow
                 (pushValue {| RedundantRow.row := row |} sampleStack)).
Proof.
  split; [reflexivity|].
  exact (recording_translates_indices
           (CallForcingRow 1 [(0, one); (1, two)] three RowType.Leq)
           sampleStack _ eq_refl).
Defined.

Lemma duplicateRow_fields_witness :
  at_ (origRowIndex sampleStack) 0 = Ok 0 ∧
  at_ (origRowIndex sampleStack) 1 = Ok 2 ∧
  duplicateRow 0 true false 1 three sampleStack
  = Ok (push_back kDuplicateRow
          (pushValue
             {| DuplicateRow.duplicateRowScale := three;
                DuplicateRow.duplicateRow := 2;
                DuplicateRow.row := 0;
                DuplicateRow.rowLowerTightened := false;
                DuplicateRow.rowUpperTightened := true |} sampleStack)).
Proof.
  split; [reflexivity|]. split; [reflexivity|].
  exact (duplicateRow_fields 0 true false 1 three sampleStack 0 2
           eq_refl eq_refl).
Defined.

Lemma fixedCol_asserts_finite_witness :
  (isfinite infinity = false ∧
   fixedColAtLower 0 infinity one [(1, one)] sampleStack = Fail AssertionFailed ∧
   fixedColAtUpper 0 infinity one [(1, one)] sampleStack = Fail AssertionFailed ∧
   removedFixedCol 0 infinity one [(1, one)] sampleStack = Fail AssertionFailed) ∧
  (isfinite two = true ∧
   Translated (origRowIndex sampleStack) [(1, one)] [(2, one)] ∧
   at_ (origColIndex sampleStack) 0 = Ok 1 ∧
   let recorded fixType :=
     Ok (push_back kFixedCol
           (pushValue [(2, one)]
              (pushValue (FixedCol.mk two one 1 fixType)
                 (set_colValues [(2, one)] sampleStack)))) in
   fixedColAtLower 0 two one [(1, one)] sampleStack
     = recorded HighsBasisStatus.LOWER ∧
   fixedColAtUpper 0 two one [(1, one)] sampleStack
     = recorded HighsBasisStatus.UPPER ∧
   removedFixedCol 0 two one [(1, one)] sampleStack
     = recorded HighsBasisStatus.NONBASIC).
Proof.
  assert (Htr : Translated (origRowIndex sampleStack) [(1, one)] [(2, one)])
    by (repeat constructor).
  split.
  - split; [reflexivity|].
    exact (proj1 (fixedCol_asserts_finite 0 infinity one [(1, one)] sampleStack)
             eq_refl).
  - split; [reflexivity|]. split; [exact Htr|]. split; [reflexivity|].
    destruct (proj2 (fixedCol_asserts_finite 0 two one [(1, one)] sampleStack)
                eq_refl) as (_ & _ & _ & Hrec).
    exact (Hrec 1 [(2, one)] Htr eq_refl).
Defined.

Lemma shape_mismatch_is_noop_witness :
  let solution := mkSolution [one] [] [two; three] [] in
  (length (col_value solution) ≠ length (origColIndex sampleRecorded) ∨
   length (row_value solution) ≠ length (origRowIndex sampleRecorded)) ∧
  ∃ st',
    undo (H := sampleUndo) HighsBasisStatus.LOWER sampleRecorded solution
         sampleBasis one = Ok (st', (solution, sampleBasis)) ∧
    undoUntil (H := sampleUndo) HighsBasisStatus.LOWER sampleRecorded solution
         sampleBasis one 1 = Ok (st', (solution, sampleBasis)).
Proof.
  assert (Hbad : length [one] ≠ length (origColIndex sampleRecorded) ∨
                 length [two; three] ≠ length (origRowIndex sampleRecorded))
    by (left; simpl; lia).
  split; [exact Hbad|].
  exact (shape_mismatch_is_noop (H := sampleUndo) HighsBasisStatus.LOWER one
           sampleRecorded (mkSolution [one] [] [two; three] []) sampleBasis 1
           Hbad).
Defined.

Lemma rewind_precedes_shape_guard_witness :
  let solution := mkSolution [one; two] [] [two] [] in
  (length (col_value solution) ≠ length (origColIndex sampleRecorded) ∨
   length (row_value solution) ≠ length (origRowIndex sampleRecorded)) ∧
  HighsDataStack.position (reductionValues sampleRecorded) = 0%nat ∧
  undo (H := sampleUndo) HighsBasisStatus.LOWER sampleRecorded solution
       sampleBasis one = Ok (rewind sampleRecorded, (solution, sampleBasis)) ∧
  HighsDataStack.position (reductionValues (rewind sampleRecorded)) = 6%nat.
Proof.
  assert (Hbad : length [one; two] ≠ length (origColIndex sampleRecorded) ∨
                 length [two] ≠ length (origRowIndex sampleRecorded))
    by (right; simpl; lia).
  split; [exact Hbad|]. split; [reflexivity|].
  destruct (rewind_precedes_shape_guard (H := sampleUndo)
              HighsBasisStatus.LOWER one sampleRecorded
              (mkSolution [one; two] [] [two] []) sampleBasis 1 Hbad)
    as (Hundo & _ & Hpos & _).
  split; [exact Hundo | exact Hpos].
Defined.

Lemma expansion_reads_before_overwriting_witness :
  ValidIndexMap (origColIndex sampleRecorded) (origNumCol sampleRecorded) ∧
  ValidIndexMap (origRowIndex sampleRecorded) (origNumRow sampleRecorded) ∧
  length (col_value sampleSolution) = length (origColIndex sampleRecorded) ∧
  length (row_value sampleSolution) = length (origRowIndex sampleRecorded) ∧
  ∃ solution' basis',
    expandToOriginal HighsBasisStatus.LOWER sampleRecorded sampleSolution
      sampleBasis = Ok (solution', basis') ∧
    undo (H := sampleUndo) HighsBasisStatus.LOWER sampleRecorded sampleSolution
         sampleBasis one
      = undoLoop (H := sampleUndo) one (length (reductions sampleRecorded))
          (rewind sampleRecorded) (solution', basis') ∧
    (∀ numReductions,
       undoUntil (H := sampleUndo) HighsBasisStatus.LOWER sampleRecorded
         sampleSolution sampleBasis one numReductions
       = undoUntilLoop (H := sampleUndo) one numReductions
           (length (reductions sampleRecorded)) (rewind sampleRecorded)
           (solution', basis')) ∧
    (∀ i x, origColIndex sampleRecorded !! i = Some x →
            col_value solution' !! Z.to_nat x = col_value sampleSolution !! i) ∧
    (∀ i x, origRowIndex sampleRecorded !! i = Some x →
            row_value solution' !! Z.to_nat x = row_value sampleSolution !! i).
Proof.
  split; [exact sampleStack_cols_valid|].
  split; [exact sampleStack_rows_valid|].
  split; [reflexivity|]. split; [reflexivity|].
  exact (expansion_reads_before_overwriting (H := sampleUndo)
           HighsBasisStatus.LOWER one sampleRecorded sampleSolution sampleBasis
           sampleStack_cols_valid sampleStack_rows_valid eq_refl eq_refl).
Defined.

Lemma dual_arrays_expanded_iff_dual_given_witness :
  (length (col_dual sampleDualSolution) = length (col_value sampleDualSolution) ∧
   ∃ solution' basis',
     expandToOriginal HighsBasisStatus.LOWER sampleRecorded sampleDualSolution
       sampleBasis = Ok (solution', basis') ∧
     Expanded [1; 3] 4 double0 [three; one] (col_dual solution') ∧
     Expanded [0; 2] 3 double0 [one; one] (row_dual solution') ∧
     Expanded [1; 3] 4 HighsBasisStatus.LOWER
       [HighsBasisStatus.BASIC; HighsBasisStatus.UPPER] (col_status basis') ∧
     Expanded [0; 2] 3 HighsBasisStatus.LOWER
       [HighsBasisStatus.BASIC; HighsBasisStatus.NONBASIC] (row_status basis')) ∧
  (length (col_dual sampleSolution) ≠ length (col_value sampleSolution) ∧
   ∃ solution' basis',
     expandToOriginal HighsBasisStatus.LOWER sampleRecorded sampleSolution
       sampleBasis = Ok (solution', basis') ∧
     Expanded [1; 3] 4 double0 [one; two] (col_value solution') ∧
     Expanded [0; 2] 3 double0 [two; three] (row_value solution') ∧
     col_dual solution' = [] ∧ row_dual solution' = [] ∧
     col_status basis' = col_status sampleBasis ∧
     row_status basis' = row_status sampleBasis).
Proof.
  split.
  - split; [reflexivity|].
    destruct (dual_arrays_expanded_iff_dual_given (H := sampleUndo)
                HighsBasisStatus.LOWER one sampleRecorded sampleDualSolution
                sampleBasis sampleStack_cols_valid sampleStack_rows_valid
                eq_refl eq_refl)
      as (solution' & basis' & Hrun & _ & _ & _ & _ & Hdual & _).
    exists solution', basis'. split; [exact Hrun|]. exact (Hdual eq_refl).
  - assert (Hne : length (col_dual sampleSolution)
                  ≠ length (col_value sampleSolution)) by (simpl; lia).
    split; [exact Hne|].
    destruct (dual_arrays_expanded_iff_dual_given (H := sampleUndo)
                HighsBasisStatus.LOWER one sampleRecorded sampleSolution
                sampleBasis sampleStack_cols_valid sampleStack_rows_valid
                eq_refl eq_refl)
      as (solution' & basis' & Hrun & _ & _ & Hcv & Hrv & _ & Hprimal).
    exists solution', basis'. split; [exact Hrun|].
    split; [exact Hcv|]. split; [exact Hrv|]. exact (Hprimal Hne).
Defined.

Lemma undoUntil_replays_from_checkpoint_witness :
  recordAll sampleCalls sampleStack = Ok sampleRecorded ∧
  Logged sampleRecorded sampleLog ∧
  expandToOriginal HighsBasisStatus.LOWER sampleRecorded sampleSolution
    sampleBasis = Ok sampleExpanded ∧
  0 ≤ 1 ≤ Z.of_nat (numReductions sampleRecorded) ∧
  ∃ st',
    undoUntil (H := sampleUndo) HighsBasisStatus.LOWER sampleRecorded
      sampleSolution sampleBasis one 1
      = Ok (st', replayed (H := sampleUndo) one (drop 1 sampleLog)
                   sampleExpanded) ∧
    reductions st' = reductions sampleRecorded ∧
    numReductions st' = numReductions sampleRecorded ∧
    HighsDataStack.position (reductionValues st') = 2%nat ∧
    undoUntil (H := sampleUndo) HighsBasisStatus.LOWER sampleRecorded
      sampleSolution sampleBasis one 0
      = undo (H := sampleUndo) HighsBasisStatus.LOWER sampleRecorded
          sampleSolution sampleBasis one.
Proof.
  split; [reflexivity|].
  split; [exact sampleRecorded_Logged|]. split; [reflexivity|].
  split; [unfold numReductions, sampleRecorded; simpl; lia|].
  exact (undoUntil_replays_from_checkpoint (H := sampleUndo)
           HighsBasisStatus.LOWER one sampleRecorded sampleLog sampleSolution
           sampleBasis sampleExpanded 1 sampleRecorded_Logged eq_refl eq_refl
           eq_refl (conj (Z.le_0_1) (Zle_bool_imp_le 1 3 eq_refl))).
Defined.

Lemma sampleIdentity_cols : IdentityMap [0; 1] 2.
Proof. index_map_cases. Qed.

Lemma sampleIdentity_rows : IdentityMap [0] 1.
Proof. index_map_cases. Qed.

Lemma undo_identity_presolve_witness :
  let st := initialStack [0; 1] [0] 2 1 in
  let solution := mkSolution [one; two] [three; one] [two] [one] in
  let basis := mkBasis [HighsBasisStatus.BASIC; HighsBasisStatus.UPPER]
                       [HighsBasisStatus.NONBASIC] in
  undo (H := sampleUndo) HighsBasisStatus.LOWER st solution basis one
  = Ok (rewind st, (solution, basis)).
Proof.
  refine (undo_identity_presolve (H := sampleUndo) HighsBasisStatus.LOWER one
            (initialStack [0; 1] [0] 2 1) _ _ eq_refl
            sampleIdentity_cols sampleIdentity_rows _).
  intros _. repeat split.
Defined.

(** C7 as stated fails: a dual solution without a basis.  The record is
    empty and the maps are the identity, [col_dual] is as long as
    [col_value], so the preamble resizes the empty [col_status] to the
    original column count; the basis handed back is not the one given.
    The filler of the new slot is immaterial: the length has changed. *)
Lemma undo_identity_presolve_counterexample :
  let st := initialStack [0] [] 1 0 in
  let solution := mkSolution [one] [double0] [] [] in
  let basis := mkBasis [] [] in
  reductions st = [] ∧
  IdentityMap (origColIndex st) (origNumCol st) ∧
  IdentityMap (origRowIndex st) (origNumRow st) ∧
  undo (H := sampleUndo) HighsBasisStatus.LOWER st solution basis one
  = Ok (rewind st, (solution, mkBasis [HighsBasisStatus.LOWER] [])) ∧
  mkBasis [HighsBasisStatus.LOWER] [] ≠ basis.
Proof.
  split; [reflexivity|]. split; [index_map_cases|]. split; [index_map_cases|].
  split; [reflexivity | discriminate].
Qed.

(** * Further properties of recording and replay *)

(** ** The replay leaves the record alone *)

Lemma SameRecord_refl st : SameRecord st st.
Proof. done. Qed.

Lemma SameRecord_trans st1 st2 st3 :
  SameRecord st1 st2 → SameRecord st2 st3 → SameRecord st1 st3.
Proof.
  intros (? & ? & ? & ? & ? & ?) (? & ? & ? & ? & ? & ?).
  unfold SameRecord. repeat split; congruence.
Qed.

Lemma popValue_SameRecord {T} `{HighsDataStack.Storable T} st (x : T) st' :
  popValue st = Ok (x, st') → SameRecord st st'.
Proof.
  unfold popValue, HighsDataStack.pop. intros Hpop.
  destruct (HighsDataStack.position (reductionValues st)) as [|p];
    [discriminate|].
  destruct (HighsDataStack.data (reductionValues st) !! p) as [e|];
    [|discriminate].
  destruct (HighsDataStack.load e); [|discriminate].
  simpl in Hpop. injection Hpop as _ <-. by destruct st.
Qed.

(** Decompose a successful switch arm into its successful pops. *)
Ltac pops_inv :=
  repeat match goal with
  | H : _ ≫= _ = Ok _ |- _ =>
      let a := fresh "a" in
      let Ha := fresh "Hpop" in
      apply bind_Ok_inv in H as ([a ?] & Ha & H); simpl in H
  | H : Ok _ = Ok _ |- _ => injection H as H
  end.

Section RecordKept.
Context `{ReductionUndo}.
Variable status0 : HighsBasisStatus.t.
Variable feastol : double.

Lemma undoReduction_SameRecord tag st solution basis st' sb :
  undoReduction feastol tag st solution basis = Ok (st', sb) →
  SameRecord st st'.
Proof.
  unfold undoReduction. destruct tag; intros Hrun; pops_inv; subst;
    repeat match goal with
    | Hp : popValue _ = Ok _ |- _ => apply popValue_SameRecord in Hp
    end;
    repeat match goal with
    | Hs : SameRecord (set_colValues _ _) _ |- _ =>
        apply (SameRecord_trans _ _ _ (SameRecord_refl _)) in Hs
    end.
  all: repeat (eapply SameRecord_trans; [eassumption|]); try done.
  all: eapply SameRecord_trans; [|eassumption]; done.
Qed.

Lemma undoLoop_SameRecord n st sb st' sb' :
  undoLoop feastol n st sb = Ok (st', sb') → SameRecord st st'.
Proof.
  revert st sb. induction n as [|i IH]; simpl; intros st sb Hrun.
  - by injection Hrun as <- _.
  - apply bind_Ok_inv in Hrun as (tag & _ & Hrun).
    apply bind_Ok_inv in Hrun as ([st1 sb1] & Hstep & Hrun).
    apply undoReduction_SameRecord in Hstep. apply IH in Hrun.
    by eapply SameRecord_trans.
Qed.

Lemma undoUntilLoop_SameRecord k n st sb st' sb' :
  undoUntilLoop feastol k n st sb = Ok (st', sb') → SameRecord st st'.
Proof.
  revert st sb. induction n as [|i IH]; simpl; intros st sb Hrun.
  - destruct (k <=? -1); [discriminate|]. by injection Hrun as <- _.
  - destruct (k <=? Z.of_nat i); [|by injection Hrun as <- _].
    apply bind_Ok_inv in Hrun as (tag & _ & Hrun).
    apply bind_Ok_inv in Hrun as ([st1 sb1] & Hstep & Hrun).
    apply undoReduction_SameRecord in Hstep. apply IH in Hrun.
    by eapply SameRecord_trans.
Qed.

Lemma SameRecord_rewind st : SameRecord st (rewind st).
Proof. by destruct st. Qed.

(** X1.  Replay is read-only on the record: whenever [undo] or
    [undoUntil] returns normally, whatever the state, the solution and
    the checkpoint, the tags, the contents of the value stack, the index
    maps and the original dimensions are those of the call; only the
    read cursor and the scratch members may differ. *)
Theorem replay_keeps_record (st st' : HighsPostsolveStack)
    (solution : HighsSolution) (basis : HighsBasis)
    (sb : HighsSolution * HighsBasis) (numReductions' : Z) :
  undo status0 st solution basis feastol = Ok (st', sb) ∨
  undoUntil status0 st solution basis feastol numReductions' = Ok (st', sb) →
  SameRecord st st' ∧ numReductions st' = numReductions st.
Proof.
  assert (Hnum : SameRecord st st' → numReductions st' = numReductions st).
  { intros (Htags & _). unfold numReductions. by rewrite Htags. }
  intros Hrun. cut (SameRecord st st'); [by auto|].
  apply (SameRecord_trans _ _ _ (SameRecord_rewind st)).
  destruct Hrun as [Hrun|Hrun]; unfold undo, undoUntil in Hrun;
    repeat case_bool_decide; try (by injection Hrun as <- _);
    apply bind_Ok_inv in Hrun as (sb0 & _ & Hrun).
  - by eapply undoLoop_SameRecord.
  - by eapply undoUntilLoop_SameRecord.
Qed.

(** ** Checkpoints outside the record *)

Lemma undoUntilLoop_beyond k n st sb :
  Z.of_nat n ≤ k → undoUntilLoop feastol k n st sb = Ok (st, sb).
Proof.
  intros Hk. destruct n as [|i]; simpl.
  - by destruct (Z.leb_spec k (-1)); [lia|].
  - by destruct (Z.leb_spec k (Z.of_nat i)); [lia|].
Qed.

(** X2.  A checkpoint at or beyond the end of the record is accepted
    silently: a call of [undoUntil] that passes the shape guards then
    only expands solution and basis; no reduction is undone and the
    read cursor stays at the top of the stack. *)
Theorem undoUntil_at_end_only_expands (st : HighsPostsolveStack)
    (solution : HighsSolution) (basis : HighsBasis) (numReductions' : Z) :
  Z.of_nat (numReductions st) ≤ numReductions' →
  length (col_value solution) = length (origColIndex st) →
  length (row_value solution) = length (origRowIndex st) →
  undoUntil status0 st solution basis feastol numReductions'
  = (sb ← expandToOriginal status0 st solution basis; Ok (rewind st, sb)).
Proof.
  intros Hk Hc Hr. rewrite undoUntil_accepted by done.
  destruct (expandToOriginal status0 st solution basis) as [sb|]; simpl;
    [|done].
  apply undoUntilLoop_beyond. by destruct st.
Qed.

Lemma undoUntilLoop_negative k n st sb :
  k < 0 →
  undoUntilLoop feastol k n st sb
  = (_ ← undoLoop feastol n st sb; Fail OutOfBounds).
Proof.
  intros Hk. revert st sb. induction n as [|i IH]; simpl; intros st sb.
  - by destruct (Z.leb_spec k (-1)); [|lia].
  - destruct (Z.leb_spec k (Z.of_nat i)); [|lia].
    destruct (at_ (reductions st) (Z.of_nat i)) as [tag|]; simpl; [|done].
    destruct (undoReduction feastol tag st sb.1 sb.2) as [[st1 sb1]|]; simpl;
      [apply IH | done].
Qed.

(** X3.  [undoUntil] has no lower bound on its checkpoint.  With a
    negative checkpoint, a call that passes the shape guards does all
    that [undo] does and then, instead of stopping at the bottom of the
    record, subscripts [reductions[-1]]: it never returns normally. *)
Theorem undoUntil_negative_checkpoint (st : HighsPostsolveStack)
    (solution : HighsSolution) (basis : HighsBasis) (numReductions' : Z) :
  numReductions' < 0 →
  length (col_value solution) = length (origColIndex st) →
  length (row_value solution) = length (origRowIndex st) →
  undoUntil status0 st solution basis feastol numReductions'
    = (_ ← undo status0 st solution basis feastol; Fail OutOfBounds) ∧
  ∀ r, undoUntil status0 st solution basis feastol numReductions' ≠ Ok r.
Proof.
  intros Hk Hc Hr.
  assert (Heq : undoUntil status0 st solution basis feastol numReductions'
          = (_ ← undo status0 st solution basis feastol; Fail OutOfBounds)).
  { rewrite undoUntil_accepted, undo_accepted by done.
    destruct (expandToOriginal status0 st solution basis) as [sb|]; simpl;
      [|done].
    by apply undoUntilLoop_negative. }
  split; [done|]. intros r. rewrite Heq.
  by destruct (undo status0 st solution basis feastol).
Qed.
End RecordKept.

(** ** What a successful expansion implies *)

Lemma assign_length {A} (v : list A) (i : Z) (x : A) (v' : list A) :
  assign v i x = Ok v' → length v' = length v ∧ 0 ≤ i < Z.of_nat (length v).
Proof.
  unfold assign. destruct (Z.ltb_spec i 0); [discriminate|].
  destruct (Z.ltb_spec i (Z.of_nat (length v))); [|discriminate].
  intros [= <-]. rewrite length_insert. lia.
Qed.

Lemma expandLoop_checks {A} (index : list Z) (n : nat) (v v' : list A) :
  expandLoop index n v = Ok v' →
  length v' = length v ∧
  ∀ i x, (i < n)%nat → index !! i = Some x →
         Z.of_nat i ≤ x < Z.of_nat (length v).
Proof.
  revert v. induction n as [|m IH]; simpl; intros v Hrun.
  - injection Hrun as <-. split; [done | intros; lia].
  - res_inv. apply at_Ok_inv in Ha as [_ Hm]. rewrite Nat2Z.id in Hm.
    apply Z.leb_le in Ha0. apply assign_length in Ha2 as [Hlen Hin].
    apply IH in Hrun as [Hlen' Hchk]. rewrite Hlen in Hlen', Hchk.
    split; [done|]. intros i x Hi Hx.
    destruct (decide (i = m)) as [->|]; [|apply Hchk; [lia|done]].
    rewrite Hm in Hx. injection Hx as <-. lia.
Qed.

Lemma vresize_inv {A} (d : A) (n : Z) (v v' : list A) :
  vresize d n v = Ok v' → 0 ≤ n ∧ length v' = Z.to_nat n.
Proof.
  unfold vresize. destruct (Z.ltb_spec n 0); [discriminate|].
  intros [= <-]. by rewrite length_resize.
Qed.

Lemma expand_checks {A} (d : A) (index : list Z) (origNum : Z) (v v' : list A) :
  vresize d origNum v ≫= expandLoop index (length index) = Ok v' →
  CheckedIndexMap index origNum.
Proof.
  intros Hrun. apply bind_Ok_inv in Hrun as (w & Hw & Hrun).
  apply vresize_inv in Hw as [Hn Hlen].
  apply expandLoop_checks in Hrun as [_ Hchk]. rewrite Hlen in Hchk.
  split; [done|].
  split; intros i x Hx; pose proof (lookup_lt_Some _ _ _ Hx) as Hi;
    specialize (Hchk _ _ Hi Hx); lia.
Qed.

Lemma expandLoop_succeeds {A} (index : list Z) (n : nat) (v : list A) :
  (n ≤ length index)%nat → AboveDiagonal index →
  (∀ i x, index !! i = Some x → x < Z.of_nat (length v)) →
  ∃ v', expandLoop index n v = Ok v' ∧ length v' = length v.
Proof.
  intros Hn Hdiag. revert v Hn.
  induction n as [|i IH]; intros v Hn Hlt; simpl; [by exists v|].
  destruct (lookup_lt_is_Some_2 index i) as [oi Hoi]; [lia|].
  pose proof (Hdiag _ _ Hoi) as Hge. pose proof (Hlt _ _ Hoi) as Hoilt.
  destruct (lookup_lt_is_Some_2 v i) as [x Hx]; [lia|].
  rewrite (at_Ok _ _ _ Hoi). simpl.
  destruct (Z.leb_spec (Z.of_nat i) oi) as [_|]; [simpl|lia].
  rewrite (at_Ok _ _ _ Hx). simpl.
  rewrite assign_Ok by lia. simpl.
  destruct (IH (<[Z.to_nat oi := x]> v)) as (v' & Hrun & Hlen);
    [lia | by rewrite length_insert |].
  rewrite length_insert in Hlen. by exists v'.
Qed.

Section ExpansionEdges.
Context `{ReductionUndo}.
Variable status0 : HighsBasisStatus.t.
Variable feastol : double.

Lemma expandToOriginal_checks st solution basis sb :
  expandToOriginal status0 st solution basis = Ok sb →
  CheckedIndexMap (origColIndex st) (origNumCol st) ∧
  CheckedIndexMap (origRowIndex st) (origNumRow st).
Proof.
  unfold expandToOriginal. intros Hrun.
  apply bind_Ok_inv in Hrun as (c0 & Hc0 & Hrun).
  apply bind_Ok_inv in Hrun as (c1 & Hc1 & Hrun).
  apply bind_Ok_inv in Hrun as (r0 & Hr0 & Hrun).
  apply bind_Ok_inv in Hrun as (r1 & Hr1 & _).
  split; eapply expand_checks.
  - by rewrite Hc0.
  - by rewrite Hr0.
Qed.

Lemma expandToOriginal_succeeds st solution basis :
  CheckedIndexMap (origColIndex st) (origNumCol st) →
  CheckedIndexMap (origRowIndex st) (origNumRow st) →
  ∃ sb, expandToOriginal status0 st solution basis = Ok sb.
Proof.
  intros (Hnc & Hcd & Hcw) (Hnr & Hrd & Hrw).
  assert (Hexp : ∀ {A} (d : A) index origNum (v : list A),
            0 ≤ origNum → AboveDiagonal index → WithinOriginal index origNum →
            ∃ v', expandLoop index (length index)
                    (resize (Z.to_nat origNum) d v) = Ok v').
  { intros A d index origNum v Hn Hd Hw.
    destruct (expandLoop_succeeds index (length index)
                (resize (Z.to_nat origNum) d v)) as (v' & Hv' & _);
      [done..| |by exists v'].
    intros i x Hx. rewrite length_resize. specialize (Hw _ _ Hx). lia. }
  destruct (Hexp _ double0 _ _ (col_value solution) Hnc Hcd Hcw) as (colv & Hcolv).
  destruct (Hexp _ double0 _ _ (row_value solution) Hnr Hrd Hrw) as (rowv & Hrowv).
  destruct (Hexp _ double0 _ _ (col_dual solution) Hnc Hcd Hcw) as (cold & Hcold).
  destruct (Hexp _ double0 _ _ (row_dual solution) Hnr Hrd Hrw) as (rowd & Hrowd).
  destruct (Hexp _ status0 _ _ (col_status basis) Hnc Hcd Hcw) as (cols & Hcols).
  destruct (Hexp _ status0 _ _ (row_status basis) Hnr Hrd Hrw) as (rows & Hrows).
  unfold expandToOriginal. rewrite !vresize_Ok by done. simpl.
  rewrite Hcolv. simpl. rewrite Hrowv. simpl.
  case_bool_decide; [|by eexists].
  rewrite (expandLoop2_both _ _ _ _ _ _ Hcols Hcold). simpl.
  rewrite (expandLoop2_both _ _ _ _ _ _ Hrows Hrowd). simpl.
  by eexists.
Qed.

(** X4.  What the expansion needs of the index maps is exactly what it
    checks on its way.  For a call that passes the shape guards, the
    expansion (a call of [undoUntil] at the end of the record) returns
    normally if and only if the original dimensions are not negative
    and every entry of both maps is at least its own position and below
    the original dimension; and so these hold after any call of [undo]
    or [undoUntil] that returns normally.  That the maps are increasing
    is not among the conditions. *)
Theorem expansion_succeeds_iff_maps_checked (st : HighsPostsolveStack)
    (solution : HighsSolution) (basis : HighsBasis) :
  length (col_value solution) = length (origColIndex st) →
  length (row_value solution) = length (origRowIndex st) →
  ((∃ sb, undoUntil status0 st solution basis feastol
            (Z.of_nat (numReductions st)) = Ok (rewind st, sb)) ↔
   CheckedIndexMap (origColIndex st) (origNumCol st) ∧
   CheckedIndexMap (origRowIndex st) (origNumRow st)) ∧
  ∀ st' sb numReductions',
    undo status0 st solution basis feastol = Ok (st', sb) ∨
    undoUntil status0 st solution basis feastol numReductions' = Ok (st', sb) →
    CheckedIndexMap (origColIndex st) (origNumCol st) ∧
    CheckedIndexMap (origRowIndex st) (origNumRow st).
Proof.
  intros Hc Hr. split; [split|].
  - intros (sb & Hrun). rewrite undoUntil_accepted in Hrun by done.
    apply bind_Ok_inv in Hrun as (sb0 & Hexp & _).
    by eapply expandToOriginal_checks.
  - intros [Hcol Hrow].
    destruct (expandToOriginal_succeeds st solution basis Hcol Hrow)
      as (sb & Hexp).
    exists sb. rewrite undoUntil_accepted, Hexp by done. simpl.
    apply undoUntilLoop_beyond. by destruct st.
  - intros st' sb k [Hrun|Hrun].
    + rewrite undo_accepted in Hrun by done.
      apply bind_Ok_inv in Hrun as (sb0 & Hexp & _).
      by eapply expandToOriginal_checks.
    + rewrite undoUntil_accepted in Hrun by done.
      apply bind_Ok_inv in Hrun as (sb0 & Hexp & _).
      by eapply expandToOriginal_checks.
Qed.

(** X5.  The expansion does not clear the slots of removed columns and
    rows.  On valid index maps, a slot of [col_value] that no
    [origColIndex[i]] points at keeps what the resized input held there:
    the reduced value of that position if there was one, otherwise the
    [0.0] of the resize; likewise for [row_value].  This is what a call
    of [undoUntil] at the end of the record hands back. *)
Theorem expansion_leaves_untargeted_slots (st : HighsPostsolveStack)
    (solution : HighsSolution) (basis : HighsBasis) :
  ValidIndexMap (origColIndex st) (origNumCol st) →
  ValidIndexMap (origRowIndex st) (origNumRow st) →
  length (col_value solution) = length (origColIndex st) →
  length (row_value solution) = length (origRowIndex st) →
  ∃ solution' basis',
    undoUntil status0 st solution basis feastol (Z.of_nat (numReductions st))
      = Ok (rewind st, (solution', basis')) ∧
    (∀ j, (∀ i x, origColIndex st !! i = Some x → Z.to_nat x ≠ j) →
          col_value solution' !! j
          = resize (Z.to_nat (origNumCol st)) double0 (col_value solution) !! j) ∧
    (∀ j, (∀ i x, origRowIndex st !! i = Some x → Z.to_nat x ≠ j) →
          row_value solution' !! j
          = resize (Z.to_nat (origNumRow st)) double0 (row_value solution) !! j).
Proof.
  intros Hcol Hrow Hclen Hrlen.
  destruct (expandToOriginal_expands status0 st solution basis Hcol Hrow)
    as (solution' & basis' & Hrun & _).
  exists solution', basis'.
  split.
  { rewrite undoUntil_accepted, Hrun by done. simpl.
    apply undoUntilLoop_beyond. by destruct st. }
  destruct Hcol as (Hcinc & Hcdiag & Hnc & Hclt).
  destruct Hrow as (Hrinc & Hrdiag & Hnr & Hrlt).
  destruct (expandLoop_moves (origColIndex st) (length (origColIndex st))
              (resize (Z.to_nat (origNumCol st)) double0 (col_value solution)))
    as (colv & Hcolv & _ & _ & Hcfr); [done..| |].
  { intros i x Hx. rewrite length_resize. specialize (Hclt _ _ Hx). lia. }
  destruct (expandLoop_moves (origRowIndex st) (length (origRowIndex st))
              (resize (Z.to_nat (origNumRow st)) double0 (row_value solution)))
    as (rowv & Hrowv & _ & _ & Hrfr); [done..| |].
  { intros i x Hx. rewrite length_resize. specialize (Hrlt _ _ Hx). lia. }
  unfold expandToOriginal in Hrun. rewrite !vresize_Ok in Hrun by done.
  simpl in Hrun. rewrite Hcolv in Hrun. simpl in Hrun.
  rewrite Hrowv in Hrun. simpl in Hrun.
  assert (col_value solution' = colv ∧ row_value solution' = rowv) as [-> ->].
  { case_bool_decide; [|by injection Hrun as <- _].
    apply bind_Ok_inv in Hrun as ([? ?] & _ & Hrun). simpl in Hrun.
    apply bind_Ok_inv in Hrun as ([? ?] & _ & Hrun). simpl in Hrun.
    by injection Hrun as <- _. }
  split; intros j Hj; [apply Hcfr | apply Hrfr];
    intros i x _ Hx; by apply (Hj i).
Qed.
End ExpansionEdges.

(** ** Expanding twice *)

Lemma StrictlyIncreasing_gap index i j x y :
  StrictlyIncreasing index → (i ≤ j)%nat →
  index !! i = Some x → index !! j = Some y →
  Z.of_nat j - Z.of_nat i ≤ y - x.
Proof.
  intros Hinc Hij Hx. revert y. induction Hij as [|j Hij IH]; intros y Hy.
  - rewrite Hx in Hy. injection Hy as <-. lia.
  - destruct (lookup_lt_is_Some_2 index j) as [z Hz];
      [apply lookup_lt_Some in Hy; lia|].
    specialize (IH _ Hz). pose proof (Hinc j (S j) z y Hz Hy). lia.
Qed.

(** A valid map that keeps every index is the identity. *)
Lemma ValidIndexMap_full index origNum :
  ValidIndexMap index origNum → Z.of_nat (length index) = origNum →
  IdentityMap index origNum.
Proof.
  intros (Hinc & Hdiag & _ & Hlt) Hlen. split; [done|].
  intros i x Hx. pose proof (lookup_lt_Some _ _ _ Hx) as Hi.
  destruct (lookup_lt_is_Some_2 index (length index - 1)) as [y Hy]; [lia|].
  pose proof (StrictlyIncreasing_gap index i (length index - 1) x y Hinc
                ltac:(lia) Hx Hy).
  pose proof (Hlt _ _ Hy). pose proof (Hdiag _ _ Hx). lia.
Qed.

Section ExpandTwice.
Context `{ReductionUndo}.
Variable status0 : HighsBasisStatus.t.
Variable feastol : double.

(** On identity maps and an empty record, [undo] hands back a solution
    and a basis whose arrays already have their lengths. *)
Lemma undo_on_identity st solution basis :
  reductions st = [] →
  IdentityMap (origColIndex st) (origNumCol st) →
  IdentityMap (origRowIndex st) (origNumRow st) →
  length (col_value solution) = length (origColIndex st) →
  length (row_value solution) = length (origRowIndex st) →
  (length (col_dual solution) = length (col_value solution) →
     length (col_status basis) = length (col_value solution) ∧
     length (row_dual solution) = length (row_value solution) ∧
     length (row_status basis) = length (row_value solution)) →
  undo status0 st solution basis feastol = Ok (rewind st, (solution, basis)).
Proof.
  intros Hempty [Hnc Hcid] [Hnr Hrid] Hclen Hrlen Hdual.
  rewrite undo_accepted, Hempty by done. unfold expandToOriginal.
  assert (Hkeep : ∀ {A} (d : A) (index : list Z) (n : Z) (v : list A),
            Z.of_nat (length index) = n →
            (∀ i x, index !! i = Some x → x = Z.of_nat i) →
            length v = length index →
            vresize d n v = Ok v ∧ expandLoop index (length index) v = Ok v).
  { intros A d index n v Hn Hid Hlen. rewrite vresize_Ok by lia.
    rewrite resize_all_alt by lia.
    split; [done|]. apply expandLoop_identity; [done|lia..]. }
  destruct (Hkeep _ double0 _ _ (col_value solution) Hnc Hcid Hclen)
    as [-> Hcv].
  destruct (Hkeep _ double0 _ _ (row_value solution) Hnr Hrid Hrlen)
    as [-> Hrv].
  simpl. rewrite Hcv. simpl. rewrite Hrv. simpl.
  case_bool_decide as Hd; simpl; [|by destruct solution, basis].
  destruct (Hdual Hd) as (Hcs & Hrd & Hrs).
  destruct (Hkeep _ double0 _ _ (col_dual solution) Hnc Hcid ltac:(lia))
    as [-> Hcd].
  destruct (Hkeep _ status0 _ _ (col_status basis) Hnc Hcid ltac:(lia))
    as [-> Hcst].
  destruct (Hkeep _ double0 _ _ (row_dual solution) Hnr Hrid ltac:(lia))
    as [-> Hrdl].
  destruct (Hkeep _ status0 _ _ (row_status basis) Hnr Hrid ltac:(lia))
    as [-> Hrst].
  simpl. rewrite (expandLoop2_both _ _ _ _ _ _ Hcst Hcd). simpl.
  rewrite (expandLoop2_both _ _ _ _ _ _ Hrst Hrdl). simpl.
  by destruct solution, basis.
Qed.

(** X6.  Expansion is idempotent through [undo].  With an empty record
    and valid index maps, whatever [undo] hands back for a solution and
    a basis, a second call of [undo] on that hands it back unchanged: if
    rows or columns had been removed the second call is rejected by the
    shape guard, and if none had been the maps are the identity and
    every array already has its original length. *)
Theorem undo_twice_on_empty_record (st st1 : HighsPostsolveStack)
    (solution solution1 : HighsSolution) (basis basis1 : HighsBasis) :
  reductions st = [] →
  ValidIndexMap (origColIndex st) (origNumCol st) →
  ValidIndexMap (origRowIndex st) (origNumRow st) →
  undo status0 st solution basis feastol = Ok (st1, (solution1, basis1)) →
  undo status0 st1 solution1 basis1 feastol = Ok (st1, (solution1, basis1)).
Proof.
  intros Hempty Hcol Hrow Hrun.
  assert (Hst1 : st1 = rewind st ∧
            (length (col_value solution) = length (origColIndex st) →
             length (row_value solution) = length (origRowIndex st) →
             expandToOriginal status0 st solution basis
             = Ok (solution1, basis1)) ∧
            ((length (col_value solution) ≠ length (origColIndex st) ∨
              length (row_value solution) ≠ length (origRowIndex st)) →
             solution1 = solution ∧ basis1 = basis)).
  { destruct (decide (length (col_value solution) = length (origColIndex st)))
      as [Hc|Hc];
      [destruct (decide (length (row_value solution)
                         = length (origRowIndex st))) as [Hr|Hr]|].
    - rewrite undo_accepted, Hempty in Hrun by done.
      destruct (expandToOriginal status0 st solution basis) as [sb|];
        [|discriminate].
      simpl in Hrun. injection Hrun as <- ->.
      split; [done|]. split; [done|]. intros [?|?]; done.
    - rewrite undo_rejected in Hrun by (by right).
      injection Hrun as <- <- <-. split; [done|]. split; done.
    - rewrite undo_rejected in Hrun by (by left).
      injection Hrun as <- <- <-. split; [done|]. split; done. }
  destruct Hst1 as (-> & Hacc & Hrej).
  assert (Hrr : rewind (rewind st) = rewind st) by (by destruct st).
  destruct (decide (length (col_value solution1) = length (origColIndex st)))
    as [Hc1|Hc1];
    [destruct (decide (length (row_value solution1)
                       = length (origRowIndex st))) as [Hr1|Hr1]|].
  2:{ rewrite undo_rejected, Hrr; [done|]. right. by destruct st. }
  2:{ rewrite undo_rejected, Hrr; [done|]. left. by destruct st. }
  destruct (decide (length (col_value solution) = length (origColIndex st)
                    ∧ length (row_value solution) = length (origRowIndex st)))
    as [[Hc Hr]|Hno].
  - specialize (Hacc Hc Hr).
    destruct (expandToOriginal_expands status0 st solution basis Hcol Hrow)
      as (s' & b' & Hexp & (Hcvl & _) & (Hrvl & _) & Hdual).
    rewrite Hacc in Hexp. injection Hexp as <- <-.
    pose proof Hcol as (_ & _ & Hnc & _). pose proof Hrow as (_ & _ & Hnr & _).
    rewrite <- Hrr at 2. apply undo_on_identity.
    + by destruct st.
    + replace (origColIndex (rewind st)) with (origColIndex st)
        by (by destruct st).
      replace (origNumCol (rewind st)) with (origNumCol st)
        by (by destruct st).
      apply ValidIndexMap_full; [done | lia].
    + replace (origRowIndex (rewind st)) with (origRowIndex st)
        by (by destruct st).
      replace (origNumRow (rewind st)) with (origNumRow st)
        by (by destruct st).
      apply ValidIndexMap_full; [done | lia].
    + by destruct st.
    + by destruct st.
    + intros Hd1. case_bool_decide as Hd.
      * destruct Hdual as ((? & _) & (? & _) & (? & _) & (? & _)). lia.
      * destruct Hdual as (Hcd & _). rewrite Hcd in Hd1. lia.
  - assert (Hbad : length (col_value solution) ≠ length (origColIndex st) ∨
                   length (row_value solution) ≠ length (origRowIndex st)).
    { destruct (decide (length (col_value solution)
                        = length (origColIndex st))); [|by left].
      right. intros ?. by apply Hno. }
    destruct (Hrej Hbad) as [-> ->]. destruct Hbad; contradiction.
Qed.
End ExpandTwice.

(** ** Recording, then replaying *)

Section RecordThenReplay.
Context `{ReductionUndo}.
Variable status0 : HighsBasisStatus.t.
Variable feastol : double.

(** The replay loop run from the top of the entries of [take n log],
    which sit on an arbitrary base: it undoes them, last first, and
    stops with the cursor on top of the base. *)
Lemma undoUntilLoop_replays_above log n st sb baseTags baseData :
  reductions st = baseTags ++ (tagOf <$> log) →
  HighsDataStack.data (reductionValues st) = baseData ++ (log ≫= pushOrder) →
  (n ≤ length log)%nat →
  HighsDataStack.position (reductionValues st)
    = (length baseData + length (take n log ≫= pushOrder))%nat →
  ∃ st',
    undoUntilLoop feastol (Z.of_nat (length baseTags)) (length baseTags + n) st sb
      = Ok (st', replayed feastol (take n log) sb) ∧
    SameRecord st st' ∧
    HighsDataStack.position (reductionValues st') = length baseData.
Proof.
  revert st sb. induction n as [|i IH]; intros st sb Htags Hdata Hn Hpos.
  - rewrite Nat.add_0_r, undoUntilLoop_beyond by lia.
    exists st. simpl in Hpos. rewrite Nat.add_0_r in Hpos. done.
  - replace (length baseTags + S i)%nat with (S (length baseTags + i)) by lia.
    simpl.
    destruct (Z.leb_spec (Z.of_nat (length baseTags))
                (Z.of_nat (length baseTags + i))) as [_|]; [|lia].
    destruct (lookup_lt_is_Some_2 log i) as [r Hr]; [lia|].
    rewrite (at_Ok _ _ (tagOf r)).
    2:{ rewrite Htags, lookup_app_r by lia.
        replace (length baseTags + i - length baseTags)%nat with i by lia.
        by rewrite list_lookup_fmap, Hr. }
    simpl.
    rewrite (take_S_r _ _ _ Hr), bind_app, length_app in Hpos.
    simpl in Hpos. rewrite app_nil_r in Hpos.
    rewrite (undoReduction_pops feastol r st
               (baseData ++ (take i log ≫= pushOrder))
               (drop (S i) log ≫= pushOrder)).
    2:{ rewrite Hdata, <- app_assoc. f_equal.
        rewrite <- (take_drop i log) at 1. rewrite bind_app. f_equal.
        rewrite (drop_S _ _ _ Hr). simpl. done. }
    2:{ rewrite Hpos, length_app. lia. }
    simpl.
    set (st1 := scratchAfter r
                  (cursorAt (length (baseData ++ (take i log ≫= pushOrder))) st)).
    destruct (scratchAfter_frame r
                (cursorAt (length (baseData ++ (take i log ≫= pushOrder))) st))
      as (Hrv & Hred & Hci & Hri & Hnc & Hnr).
    fold st1 in Hrv, Hred, Hci, Hri, Hnc, Hnr.
    destruct (IH st1 (applyUndo feastol r (sb.1, sb.2)))
      as (st' & Hrun & Hsame & Hpos'); [| |lia| |].
    + by rewrite Hred.
    + by rewrite Hrv.
    + rewrite Hrv. simpl. by rewrite length_app.
    + exists st'. split; [|split; [|done]].
      * rewrite Hrun. f_equal. f_equal.
        rewrite (take_S_r _ _ _ Hr), replayed_snoc. by destruct sb.
      * destruct Hsame as (? & ? & ? & ? & ? & ?).
        unfold SameRecord. rewrite Hrv, Hred, Hci, Hri, Hnc, Hnr in *.
        done.
Qed.

(** X7.  A checkpoint taken with [numReductions()] undoes exactly what
    is recorded after it.  Take any state, whatever its stack holds,
    record further calls, and call [undoUntil] with the earlier
    [numReductions()]: if the call passes the shape guards and the
    expansion succeeds, it applies the per-kind undo of the reductions
    of these calls, and of no other, the last recorded first, and stops
    with the read cursor on top of what the stack held at the
    checkpoint. *)
Theorem undoUntil_undoes_later_recordings (st0 st : HighsPostsolveStack)
    (cs : list RecordingCall) (solution : HighsSolution) (basis : HighsBasis)
    (expanded : HighsSolution * HighsBasis) :
  recordAll cs st0 = Ok st →
  length (col_value solution) = length (origColIndex st) →
  length (row_value solution) = length (origRowIndex st) →
  expandToOriginal status0 st solution basis = Ok expanded →
  ∃ log st',
    Forall2 (StoresOriginalIndices st0) cs log ∧
    undoUntil status0 st solution basis feastol (Z.of_nat (numReductions st0))
      = Ok (st', replayed feastol log expanded) ∧
    HighsDataStack.position (reductionValues st')
      = length (HighsDataStack.data (reductionValues st0)).
Proof.
  intros Hrec Hc Hr Hexp.
  apply recordAll_appends in Hrec as (log & Hall & Ht & Hd & _).
  destruct (undoUntilLoop_replays_above log (length log) (rewind st) expanded
              (reductions st0) (HighsDataStack.data (reductionValues st0)))
    as (st' & Hrun & _ & Hpos).
  - by destruct st.
  - by destruct st.
  - done.
  - rewrite firstn_all. destruct st as [[data pos] ? ? ? ? ? ? ?].
    simpl in *. by rewrite Hd, length_app.
  - exists log, st'. split; [done|]. split; [|done].
    rewrite undoUntil_accepted, Hexp by done. simpl.
    rewrite firstn_all in Hrun. rewrite <- Hrun. f_equal.
    by rewrite Ht, length_app, length_fmap.
Qed.

End RecordThenReplay.

(** X9.  Recording is append-only.  A sequence of successful recording
    calls raises [numReductions()] by the number of calls and leaves
    everything that was there in place: the earlier tags and the
    earlier contents of the value stack are a prefix of the new ones,
    and the read cursor, the index maps and the original dimensions are
    untouched. *)
Theorem recording_is_append_only (cs : list RecordingCall)
    (st st' : HighsPostsolveStack) :
  recordAll cs st = Ok st' →
  numReductions st' = (numReductions st + length cs)%nat ∧
  reductions st `prefix_of` reductions st' ∧
  HighsDataStack.data (reductionValues st)
    `prefix_of` HighsDataStack.data (reductionValues st') ∧
  HighsDataStack.position (reductionValues st')
    = HighsDataStack.position (reductionValues st) ∧
  origColIndex st' = origColIndex st ∧ origRowIndex st' = origRowIndex st ∧
  origNumCol st' = origNumCol st ∧ origNumRow st' = origNumRow st.
Proof.
  intros Hrec.
  apply recordAll_appends in Hrec as (log & Hall & Ht & Hd & Hrest).
  split; [|split; [by eexists|split; [by eexists|done]]].
  unfold numReductions. rewrite Ht, length_app, length_fmap.
  by rewrite (Forall2_length _ _ _ Hall).
Qed.

(** ** When a recording call is defined *)

Lemma at_Fail {A} (v : list A) (i : Z) (f : Failure) :
  at_ v i = Fail f → f = OutOfBounds.
Proof.
  unfold at_. destruct (i <? 0); [by intros [= <-]|].
  destruct (v !! Z.to_nat i); [discriminate | by intros [= <-]].
Qed.

Lemma emplaceAll_Fail index vec acc f :
  emplaceAll index vec acc = Fail f → f = OutOfBounds.
Proof.
  revert acc. induction vec as [|nz vec IH]; simpl; intros acc; [discriminate|].
  destruct (at_ index nz.1) as [o|f'] eqn:Hat; simpl; [apply IH|].
  intros [= <-]. by eapply at_Fail.
Qed.

Lemma record_asserted c st st' : record c st = Ok st' → AssertionsHold c.
Proof.
  destruct c; simpl; try done;
    unfold fixedColAtLower, fixedColAtUpper, removedFixedCol;
    by destruct (isfinite fixValue).
Qed.

(** Classify the failure of a recording operation written as a chain of
    steps. *)
Ltac record_fail :=
  repeat match goal with
  | |- context [emplaceAll ?index ?vec ?acc ≫= _] =>
      let Hv := fresh "Hv" in
      destruct (emplaceAll index vec acc) eqn:Hv; simpl;
      [|apply emplaceAll_Fail in Hv; intros [= <-]; auto]
  | |- context [at_ ?v ?i ≫= _] =>
      let Hv := fresh "Hv" in
      destruct (at_ v i) eqn:Hv; simpl;
      [|apply at_Fail in Hv; intros [= <-]; auto]
  end; try discriminate.

(** X10.  When a recording call is defined.  A recording operation
    returns normally exactly when its assertion holds (a finite
    [fixValue] for the three FixedCol operations, nothing for the
    others) and every index it is passed, those of the slices included,
    lies inside the current index map it is sent through.  When it does
    not, it is either the assertion that fails, and then because
    [fixValue] is not finite, or a subscript that is out of bounds;
    [redundantRow], which subscripts nothing, always returns. *)
Theorem record_defined_iff (c : RecordingCall) (st : HighsPostsolveStack) :
  ((∃ st', record c st = Ok st') ↔
   AssertionsHold c ∧ ∃ r, StoresOriginalIndices st c r) ∧
  (∀ f, record c st = Fail f →
        f = AssertionFailed ∧ ¬ AssertionsHold c ∨ f = OutOfBounds) ∧
  (∀ row, ∃ st', record (CallRedundantRow row) st = Ok st').
Proof.
  split; [split|split].
  - intros (st' & Hrec). split; [by eapply record_asserted|].
    apply record_appends in Hrec as (r & Hidx & _). by exists r.
  - intros (Hassert & r & Hidx). by eapply record_succeeds.
  - intros f. destruct c; simpl;
      [unfold freeColSubstitution | unfold doubletonEquation
      | unfold equalityRowAddition | unfold singletonRow
      | unfold fixedColAtLower | unfold fixedColAtUpper | unfold removedFixedCol
      | unfold redundantRow | unfold forcingRow | unfold duplicateRow
      | unfold duplicateColumn ];
      try (destruct (isfinite fixValue) eqn:Hfin; simpl;
           [|intros [= <-]; left; split; [done|congruence]]);
      simpl; record_fail.
  - intros row. by eexists.
Qed.

(** ** Tightening flags of a doubleton equation *)

Lemma digits2_pos_bounds (m : positive) :
  2 ^ (Z.pos (digits2_pos m) - 1) ≤ Z.pos m < 2 ^ Z.pos (digits2_pos m).
Proof.
  induction m as [p IH|p IH|]; simpl digits2_pos.
  - rewrite Pos2Z.inj_succ, Z.pow_succ_r by lia.
    replace (Z.succ (Z.pos (digits2_pos p)) - 1) with
      (Z.succ (Z.pos (digits2_pos p) - 1)) by lia.
    rewrite Z.pow_succ_r by lia. lia.
  - rewrite Pos2Z.inj_succ, Z.pow_succ_r by lia.
    replace (Z.succ (Z.pos (digits2_pos p)) - 1) with
      (Z.succ (Z.pos (digits2_pos p) - 1)) by lia.
    rewrite Z.pow_succ_r by lia. lia.
  - simpl. lia.
Qed.

(** What validity says of a finite binary64: the exponent is at least
    [-1074] and at most [971], the mantissa is below [2^53], and above
    the least exponent the mantissa is normalised. *)
Lemma bounded_binary64 (m : positive) (e : Z) :
  bounded 53 1024 m e = true →
  -1074 ≤ e ≤ 971 ∧ Z.pos m < 2 ^ 53 ∧ (-1074 < e → 2 ^ 52 ≤ Z.pos m).
Proof.
  unfold bounded, canonical_mantissa, fexp, emin.
  intros Hb. apply andb_prop in Hb as [Hc He].
  apply Z.eqb_eq in Hc. apply Z.leb_le in He.
  pose proof (digits2_pos_bounds m) as [Hlo Hhi].
  split; [lia|]. split.
  - eapply Z.lt_le_trans; [exact Hhi|].
    apply Z.pow_le_mono_r; lia.
  - intros Hmin.
    assert (Z.pos (digits2_pos m) = 53) as Hd by lia.
    rewrite Hd in Hlo. exact Hlo.
Qed.

Lemma finite_ulps_pos (m : positive) (e : Z) :
  bounded 53 1024 m e = true →
  0 < Z.pos m * 2 ^ (e + 1074) < 2 ^ 2098.
Proof.
  intros Hb. apply bounded_binary64 in Hb as (He & Hm & _).
  assert (0 < 2 ^ (e + 1074)) by (apply Z.pow_pos_nonneg; lia).
  split; [lia|].
  assert (2 ^ (e + 1074) ≤ 2 ^ 2045) by (apply Z.pow_le_mono_r; lia).
  replace (2 ^ 2098) with (2 ^ 53 * 2 ^ 2045) by (rewrite <- Z.pow_add_r; lia).
  nia.
Qed.

(** Among valid binary64 values the smaller exponent has the smaller
    magnitude. *)
Lemma finite_ulps_exponent (m1 m2 : positive) (e1 e2 : Z) :
  bounded 53 1024 m1 e1 = true → bounded 53 1024 m2 e2 = true →
  e1 < e2 →
  Z.pos m1 * 2 ^ (e1 + 1074) < Z.pos m2 * 2 ^ (e2 + 1074).
Proof.
  intros Hb1 Hb2 Hlt.
  apply bounded_binary64 in Hb1 as (He1 & Hm1 & _).
  apply bounded_binary64 in Hb2 as (He2 & _ & Hm2).
  specialize (Hm2 ltac:(lia)).
  assert (0 < 2 ^ (e1 + 1074)) by (apply Z.pow_pos_nonneg; lia).
  assert (2 * 2 ^ (e1 + 1074) ≤ 2 ^ (e2 + 1074)).
  { rewrite <- Z.pow_succ_r by lia. apply Z.pow_le_mono_r; lia. }
  replace (2 ^ 53) with (2 * 2 ^ 52) in Hm1 by reflexivity.
  nia.
Qed.

Lemma finite_ulps_compare (m1 m2 : positive) (e1 e2 : Z) :
  bounded 53 1024 m1 e1 = true → bounded 53 1024 m2 e2 = true →
  match e1 ?= e2 with
  | Lt => Lt
  | Gt => Gt
  | Eq => Pos.compare_cont Eq m1 m2
  end
  = (Z.pos m1 * 2 ^ (e1 + 1074) ?= Z.pos m2 * 2 ^ (e2 + 1074)).
Proof.
  intros Hb1 Hb2. symmetry.
  destruct (Z.compare_spec e1 e2) as [->|Hlt|Hgt].
  - pose proof (bounded_binary64 _ _ Hb2) as (He & _).
    assert (0 < 2 ^ (e2 + 1074)) by (apply Z.pow_pos_nonneg; lia).
    change (Pos.compare_cont Eq m1 m2) with (Z.pos m1 ?= Z.pos m2).
    destruct (Z.compare_spec (Z.pos m1) (Z.pos m2)) as [Heq|Hl|Hg].
    + rewrite Heq. apply Z.compare_refl.
    + apply Z.compare_lt_iff. nia.
    + apply Z.compare_gt_iff. nia.
  - apply Z.compare_lt_iff. by apply finite_ulps_exponent.
  - apply Z.compare_gt_iff. by apply finite_ulps_exponent.
Qed.

(** [SFcompare] on binary64 values that are not NaN is the comparison
    of their values. *)
Lemma SFcompare_ulps (x y : double) :
  binary64 x → binary64 y → isnan x = false → isnan y = false →
  SFcompare x y = Some (ulps x ?= ulps y).
Proof.
  unfold binary64.
  assert (Hhuge : 0 < 2 ^ 2098) by (by apply Z.pow_pos_nonneg).
  destruct x as [sx|sx| |sx mx ex], y as [sy|sy| |sy my ey];
    unfold SFcompare, ulps, isnan, valid_binary; cbv beta iota;
    intros Hx Hy Hnx Hny; try discriminate;
    try pose proof (finite_ulps_pos _ _ Hx);
    try pose proof (finite_ulps_pos _ _ Hy).
  9:{ pose proof (finite_ulps_compare _ _ _ _ Hx Hy) as Hc.
      destruct sx, sy; f_equal.
      - replace (-1 * (Z.pos mx * 2 ^ (ex + 1074))
                 ?= -1 * (Z.pos my * 2 ^ (ey + 1074)))
          with (CompOpp (Z.pos mx * 2 ^ (ex + 1074)
                         ?= Z.pos my * 2 ^ (ey + 1074))).
        + rewrite <- Hc. by destruct (ex ?= ey).
        + rewrite <- Z.compare_antisym, <- Z.compare_opp. f_equal; lia.
      - symmetry. apply Z.compare_lt_iff. lia.
      - symmetry. apply Z.compare_gt_iff. lia.
      - rewrite Hc. f_equal; lia. }
  all: repeat match goal with s : bool |- _ => destruct s end; f_equal;
       symmetry;
       first [ apply Z.compare_refl
             | apply Z.compare_lt_iff; lia
             | apply Z.compare_gt_iff; lia ].
Qed.

(** [x < y] on doubles: neither is NaN and the value of [x] is below
    that of [y]. *)
Lemma SFltb_ulps (x y : double) :
  binary64 x → binary64 y →
  SFltb x y = true ↔ isnan x = false ∧ isnan y = false ∧ ulps x < ulps y.
Proof.
  intros Hx Hy. unfold SFltb.
  destruct (isnan x) eqn:Hnx.
  { destruct x; try discriminate. simpl. split; [discriminate|].
    by intros (? & _). }
  destruct (isnan y) eqn:Hny.
  { destruct y; try discriminate.
    replace (SFcompare x S754_nan) with (@None comparison) by (by destruct x).
    split; [discriminate|]. by intros (_ & ? & _). }
  rewrite SFcompare_ulps by done.
  destruct (Z.compare_spec (ulps x) (ulps y)); split; try done;
    try discriminate; intros (_ & _ & ?); lia.
Qed.

(** X11.  [doubletonEquation] marks a bound as tightened exactly on a
    strict change in the direction of tightening.  For binary64 bounds,
    the descriptor it pushes has [lowerTightened] set if and only if
    neither lower bound is NaN and the value of [newLower] is above
    that of [oldLower], and [upperTightened] set if and only if neither
    upper bound is NaN and the value of [newUpper] is below that of
    [oldUpper]; equal values, [-0.0] against [+0.0] included, set no
    flag. *)
Theorem doubletonEquation_tightening_flags
    (row colSubst col : Z)
    (coefSubst coef rhs substLower substUpper oldLower oldUpper
     newLower newUpper substCost : double)
    (colVec : list Nonzero) (st st' : HighsPostsolveStack) :
  binary64 oldLower → binary64 newLower →
  binary64 oldUpper → binary64 newUpper →
  doubletonEquation row colSubst col coefSubst coef rhs substLower substUpper
    oldLower oldUpper newLower newUpper substCost colVec st = Ok st' →
  ∃ d colValues',
    HighsDataStack.data (reductionValues st')
      = HighsDataStack.data (reductionValues st)
        ++ [HighsDataStack.EDoubletonEquation d;
            HighsDataStack.ENonzeros colValues'] ∧
    (DoubletonEquation.lowerTightened d = true ↔
       isnan oldLower = false ∧ isnan newLower = false ∧
       ulps oldLower < ulps newLower) ∧
    (DoubletonEquation.upperTightened d = true ↔
       isnan newUpper = false ∧ isnan oldUpper = false ∧
       ulps newUpper < ulps oldUpper).
Proof.
  intros HoldL HnewL HoldU HnewU.
  unfold doubletonEquation. intros Hrec. simpl in Hrec. res_inv. subst st'.
  eexists _, _. simpl. rewrite <- app_assoc. simpl.
  split; [reflexivity|]. simpl. split; by apply SFltb_ulps.
Qed.

(** ** What a replay depends on *)

Lemma Agree_refl st : Agree st st.
Proof. done. Qed.

Lemma SameOutcome_refl r : SameOutcome r r.
Proof. by destruct r as [[st sb]|f]. Qed.

Section ReplayInputs.
Context `{ReductionUndo}.
Variable status0 : HighsBasisStatus.t.
Variable feastol : double.

Lemma undoReduction_Agree tag st1 st2 solution basis :
  Agree st1 st2 →
  SameOutcome (undoReduction feastol tag st1 solution basis)
              (undoReduction feastol tag st2 solution basis).
Proof.
  destruct st1 as [s1 t1 ci1 ri1 rv1 cv1 nc1 nr1].
  destruct st2 as [s2 t2 ci2 ri2 rv2 cv2 nc2 nr2].
  intros (Hs & Ht & Hci & Hri & Hnc & Hnr). simpl in *. subst.
  unfold undoReduction, popValue. destruct tag; simpl;
    repeat match goal with
    | |- context [@HighsDataStack.pop ?T ?I ?s] =>
        destruct (@HighsDataStack.pop T I s) as [[? ?]|]; simpl
    end; done.
Qed.

Lemma undoLoop_Agree n st1 st2 sb :
  Agree st1 st2 →
  SameOutcome (undoLoop feastol n st1 sb) (undoLoop feastol n st2 sb).
Proof.
  revert st1 st2 sb. induction n as [|i IH]; simpl; intros st1 st2 sb Hag;
    [done|].
  pose proof Hag as (_ & <- & _).
  destruct (at_ (reductions st1) (Z.of_nat i)) as [tag|]; simpl; [|done].
  pose proof (undoReduction_Agree tag st1 st2 sb.1 sb.2 Hag) as Hstep.
  destruct (undoReduction feastol tag st1 sb.1 sb.2) as [[st1' sb1]|],
           (undoReduction feastol tag st2 sb.1 sb.2) as [[st2' sb2]|];
    simpl in *; try done.
  destruct Hstep as [Hag' <-]. by apply IH.
Qed.

Lemma undoUntilLoop_Agree k n st1 st2 sb :
  Agree st1 st2 →
  SameOutcome (undoUntilLoop feastol k n st1 sb)
              (undoUntilLoop feastol k n st2 sb).
Proof.
  revert st1 st2 sb. induction n as [|i IH]; simpl; intros st1 st2 sb Hag.
  - by destruct (k <=? -1).
  - destruct (k <=? Z.of_nat i); [|done].
    pose proof Hag as (_ & <- & _).
    destruct (at_ (reductions st1) (Z.of_nat i)) as [tag|]; simpl; [|done].
    pose proof (undoReduction_Agree tag st1 st2 sb.1 sb.2 Hag) as Hstep.
    destruct (undoReduction feastol tag st1 sb.1 sb.2) as [[st1' sb1]|],
             (undoReduction feastol tag st2 sb.1 sb.2) as [[st2' sb2]|];
      simpl in *; try done.
    destruct Hstep as [Hag' <-]. by apply IH.
Qed.

Lemma SameRecord_rewind_Agree st1 st2 :
  SameRecord st1 st2 → Agree (rewind st1) (rewind st2).
Proof.
  destruct st1 as [[d1 p1] ? ? ? ? ? ? ?], st2 as [[d2 p2] ? ? ? ? ? ? ?].
  intros (? & ? & ? & ? & ? & ?). simpl in *. subst.
  unfold Agree, rewind. simpl. done.
Qed.

Lemma expandToOriginal_Agree st1 st2 solution basis :
  Agree st1 st2 →
  expandToOriginal status0 st1 solution basis
  = expandToOriginal status0 st2 solution basis.
Proof.
  intros (_ & _ & Hci & Hri & Hnc & Hnr). unfold expandToOriginal.
  by rewrite Hci, Hri, Hnc, Hnr.
Qed.

Lemma undo_SameRecord st1 st2 solution basis :
  SameRecord st1 st2 →
  SameOutcome (undo status0 st1 solution basis feastol)
              (undo status0 st2 solution basis feastol).
Proof.
  intros Hsame. apply SameRecord_rewind_Agree in Hsame as Hag.
  pose proof Hag as (_ & Ht & Hci & Hri & _).
  unfold undo. rewrite (expandToOriginal_Agree _ _ _ _ Hag), Ht, Hci, Hri.
  repeat case_bool_decide; try done.
  destruct (expandToOriginal status0 (rewind st2) solution basis) as [sb|];
    simpl; [|done].
  by apply undoLoop_Agree.
Qed.

Lemma undoUntil_SameRecord st1 st2 solution basis k :
  SameRecord st1 st2 →
  SameOutcome (undoUntil status0 st1 solution basis feastol k)
              (undoUntil status0 st2 solution basis feastol k).
Proof.
  intros Hsame. apply SameRecord_rewind_Agree in Hsame as Hag.
  pose proof Hag as (_ & Ht & Hci & Hri & _).
  unfold undoUntil.
  rewrite (expandToOriginal_Agree _ _ _ _ Hag), Ht, Hci, Hri.
  repeat case_bool_decide; try done.
  destruct (expandToOriginal status0 (rewind st2) solution basis) as [sb|];
    simpl; [|done].
  by apply undoUntilLoop_Agree.
Qed.

(** X12.  A replay reads neither the incoming read cursor nor the
    scratch members: on two states with the same tags, stack contents,
    index maps and dimensions, [undo] and [undoUntil] have the same
    outcome (the same failure, or the same solution and basis and the
    same final stack).  So a replay can be run again: on the state a
    successful [undo] or [undoUntil] leaves, any replay has the outcome
    it has on the state before. *)
Theorem replay_can_be_restarted (st1 st2 : HighsPostsolveStack) :
  (SameRecord st1 st2 →
   ∀ solution basis numReductions',
     SameOutcome (undo status0 st1 solution basis feastol)
                 (undo status0 st2 solution basis feastol) ∧
     SameOutcome (undoUntil status0 st1 solution basis feastol numReductions')
                 (undoUntil status0 st2 solution basis feastol numReductions')) ∧
  (∀ solution0 basis0 sb0 numReductions0,
     undo status0 st1 solution0 basis0 feastol = Ok (st2, sb0) ∨
     undoUntil status0 st1 solution0 basis0 feastol numReductions0
       = Ok (st2, sb0) →
     ∀ solution basis numReductions',
       SameOutcome (undo status0 st1 solution basis feastol)
                   (undo status0 st2 solution basis feastol) ∧
       SameOutcome (undoUntil status0 st1 solution basis feastol numReductions')
                   (undoUntil status0 st2 solution basis feastol numReductions')).
Proof.
  assert (Hmain : SameRecord st1 st2 →
            ∀ solution basis k,
              SameOutcome (undo status0 st1 solution basis feastol)
                          (undo status0 st2 solution basis feastol) ∧
              SameOutcome (undoUntil status0 st1 solution basis feastol k)
                          (undoUntil status0 st2 solution basis feastol k)).
  { intros Hsame solution basis k.
    split; [by apply undo_SameRecord | by apply undoUntil_SameRecord]. }
  split; [exact Hmain|].
  intros solution0 basis0 sb0 k0 Hrun. apply Hmain.
  apply (SameRecord_trans _ _ _ (SameRecord_rewind st1)).
  destruct Hrun as [Hrun|Hrun]; unfold undo, undoUntil in Hrun;
    repeat case_bool_decide; try (by injection Hrun as <- _);
    apply bind_Ok_inv in Hrun as (sb1 & _ & Hrun).
  - by eapply undoLoop_SameRecord.
  - by eapply undoUntilLoop_SameRecord.
Qed.
End ReplayInputs.

(** ** Nested checkpoints *)

Section NestedCheckpoints.
Context `{ReductionUndo}.
Variable status0 : HighsBasisStatus.t.
Variable feastol : double.

Lemma replayed_app log1 log2 sb :
  replayed feastol (log1 ++ log2) sb
  = replayed feastol log1 (replayed feastol log2 sb).
Proof. unfold replayed. by rewrite rev_app_distr, fold_left_app. Qed.

(** X13.  Checkpoints nest.  On a state that holds its log, for two
    checkpoints [k1 <= k2] within the record and a call that passes the
    shape guards, [undoUntil] down to [k1] returns what [undoUntil] down
    to [k2] returns with the records [k1 .. k2-1] undone on top of it,
    the last of them first. *)
Theorem undoUntil_checkpoints_nest (st : HighsPostsolveStack)
    (log : list Reduction) (solution : HighsSolution) (basis : HighsBasis)
    (expanded : HighsSolution * HighsBasis) (k1 k2 : nat) :
  Logged st log →
  length (col_value solution) = length (origColIndex st) →
  length (row_value solution) = length (origRowIndex st) →
  expandToOriginal status0 st solution basis = Ok expanded →
  (k1 ≤ k2 ≤ numReductions st)%nat →
  ∃ st1 st2 sb2,
    undoUntil status0 st solution basis feastol (Z.of_nat k2) = Ok (st2, sb2) ∧
    undoUntil status0 st solution basis feastol (Z.of_nat k1)
      = Ok (st1, replayed feastol (take (k2 - k1) (drop k1 log)) sb2).
Proof.
  intros Hlog Hc Hr Hexp Hk.
  pose proof Hlog as [Htags Hdata].
  assert (Hlen : length (reductions st) = length log)
    by (by rewrite Htags, length_fmap).
  unfold numReductions in Hk.
  assert (Hrun : ∀ k, (k ≤ length log)%nat →
            ∃ st', undoUntil status0 st solution basis feastol (Z.of_nat k)
                   = Ok (st', replayed feastol (drop k log) expanded)).
  { intros k Hkl.
    destruct (undoUntilLoop_replays feastol log k (length log)
                (rewind st) expanded) as (st' & Hrun & _).
    - by destruct st.
    - lia.
    - rewrite firstn_all. destruct st as [[data pos] ? ? ? ? ? ? ?].
      simpl in *. by rewrite Hdata.
    - exists st'. rewrite firstn_all in Hrun.
      by rewrite undoUntil_accepted, Hexp, Hlen. }
  destruct (Hrun k1) as (st1 & Hrun1); [lia|].
  destruct (Hrun k2) as (st2 & Hrun2); [lia|].
  exists st1, st2, (replayed feastol (drop k2 log) expanded).
  split; [done|]. rewrite Hrun1. f_equal. f_equal.
  rewrite <- replayed_app. f_equal.
  rewrite <- (take_drop (k2 - k1) (drop k1 log)) at 1.
  f_equal. rewrite drop_drop. f_equal. lia.
Qed.
End NestedCheckpoints.

(** ** The further properties on sample data *)

Lemma replay_keeps_record_witness :
  ∃ st' sb,
    undo (H := sampleUndo) HighsBasisStatus.LOWER sampleRecorded sampleSolution
      sampleBasis one = Ok (st', sb) ∧
    SameRecord sampleRecorded st' ∧
    numReductions st' = numReductions sampleRecorded.
Proof.
  eexists _, _. split; [vm_compute; reflexivity|].
  refine (replay_keeps_record (H := sampleUndo) HighsBasisStatus.LOWER one
            sampleRecorded _ sampleSolution sampleBasis _ 0 (or_introl _)).
  vm_compute; reflexivity.
Defined.

Lemma undoUntil_at_end_only_expands_witness :
  Z.of_nat (numReductions sampleRecorded) ≤ 5 ∧
  undoUntil (H := sampleUndo) HighsBasisStatus.LOWER sampleRecorded
    sampleSolution sampleBasis one 5
  = (sb ← expandToOriginal HighsBasisStatus.LOWER sampleRecorded sampleSolution
            sampleBasis;
     Ok (rewind sampleRecorded, sb)).
Proof.
  assert (Hk : Z.of_nat (numReductions sampleRecorded) ≤ 5)
    by (unfold numReductions, sampleRecorded; simpl; lia).
  split; [exact Hk|].
  exact (undoUntil_at_end_only_expands (H := sampleUndo) HighsBasisStatus.LOWER
           one sampleRecorded sampleSolution sampleBasis 5 Hk eq_refl eq_refl).
Defined.

Lemma undoUntil_negative_checkpoint_witness :
  undoUntil (H := sampleUndo) HighsBasisStatus.LOWER sampleRecorded
    sampleSolution sampleBasis one (-1)
    = (_ ← undo (H := sampleUndo) HighsBasisStatus.LOWER sampleRecorded
             sampleSolution sampleBasis one;
       Fail OutOfBounds) ∧
  ∀ r, undoUntil (H := sampleUndo) HighsBasisStatus.LOWER sampleRecorded
         sampleSolution sampleBasis one (-1) ≠ Ok r.
Proof.
  exact (undoUntil_negative_checkpoint (H := sampleUndo) HighsBasisStatus.LOWER
           one sampleRecorded sampleSolution sampleBasis (-1)
           (Z.lt_pred_l 0) eq_refl eq_refl).
Defined.

Lemma expansion_succeeds_iff_maps_checked_witness :
  (∃ sb, undoUntil (H := sampleUndo) HighsBasisStatus.LOWER sampleRecorded
           sampleSolution sampleBasis one
           (Z.of_nat (numReductions sampleRecorded))
         = Ok (rewind sampleRecorded, sb)) ∧
  CheckedIndexMap (origColIndex sampleRecorded) (origNumCol sampleRecorded) ∧
  CheckedIndexMap (origRowIndex sampleRecorded) (origNumRow sampleRecorded).
Proof.
  destruct (expansion_succeeds_iff_maps_checked (H := sampleUndo)
              HighsBasisStatus.LOWER one sampleRecorded sampleSolution
              sampleBasis eq_refl eq_refl) as [[Hto _] _].
  assert (Hex : ∃ sb, undoUntil (H := sampleUndo) HighsBasisStatus.LOWER
                        sampleRecorded sampleSolution sampleBasis one
                        (Z.of_nat (numReductions sampleRecorded))
                      = Ok (rewind sampleRecorded, sb))
    by (eexists; vm_compute; reflexivity).
  split; [exact Hex | exact (Hto Hex)].
Defined.

Lemma expansion_leaves_untargeted_slots_witness :
  ∃ solution' basis',
    undoUntil (H := sampleUndo) HighsBasisStatus.LOWER sampleRecorded
      sampleSolution sampleBasis one (Z.of_nat (numReductions sampleRecorded))
      = Ok (rewind sampleRecorded, (solution', basis')) ∧
    (∀ j, (∀ i x, origColIndex sampleRecorded !! i = Some x → Z.to_nat x ≠ j) →
          col_value solution' !! j
          = resize (Z.to_nat (origNumCol sampleRecorded)) double0
              (col_value sampleSolution) !! j) ∧
    (∀ j, (∀ i x, origRowIndex sampleRecorded !! i = Some x → Z.to_nat x ≠ j) →
          row_value solution' !! j
          = resize (Z.to_nat (origNumRow sampleRecorded)) double0
              (row_value sampleSolution) !! j).
Proof.
  exact (expansion_leaves_untargeted_slots (H := sampleUndo)
           HighsBasisStatus.LOWER one sampleRecorded sampleSolution sampleBasis
           sampleStack_cols_valid sampleStack_rows_valid eq_refl eq_refl).
Defined.

Lemma undo_twice_on_empty_record_witness :
  ∃ st1 solution1 basis1,
    undo (H := sampleUndo) HighsBasisStatus.LOWER sampleStack sampleDualSolution
      sampleBasis one = Ok (st1, (solution1, basis1)) ∧
    length (col_value solution1) = 4%nat ∧
    undo (H := sampleUndo) HighsBasisStatus.LOWER st1 solution1 basis1 one
      = Ok (st1, (solution1, basis1)).
Proof.
  eexists _, _, _. split; [vm_compute; reflexivity|]. split; [reflexivity|].
  refine (undo_twice_on_empty_record (H := sampleUndo) HighsBasisStatus.LOWER
            one sampleStack _ sampleDualSolution _ sampleBasis _ eq_refl
            sampleStack_cols_valid sampleStack_rows_valid _).
  vm_compute; reflexivity.
Defined.

Lemma undoUntil_undoes_later_recordings_witness :
  let cs := [CallSingletonRow 0 1 three true false; CallRedundantRow 0] in
  ∃ st expanded,
    recordAll cs sampleRecorded = Ok st ∧
    expandToOriginal HighsBasisStatus.LOWER st sampleSolution sampleBasis
      = Ok expanded ∧
    ∃ log st',
      Forall2 (StoresOriginalIndices sampleRecorded) cs log ∧
      undoUntil (H := sampleUndo) HighsBasisStatus.LOWER st sampleSolution
        sampleBasis one 3
        = Ok (st', replayed (H := sampleUndo) one log expanded) ∧
      HighsDataStack.position (reductionValues st') = 6%nat.
Proof.
  eexists _, _. split; [vm_compute; reflexivity|].
  split; [vm_compute; reflexivity|].
  eapply (undoUntil_undoes_later_recordings (H := sampleUndo)
            HighsBasisStatus.LOWER one sampleRecorded);
    vm_compute; reflexivity.
Defined.

Lemma recording_is_append_only_witness :
  recordAll sampleCalls sampleStack = Ok sampleRecorded ∧
  numReductions sampleRecorded = (numReductions sampleStack + 3)%nat ∧
  reductions sampleStack `prefix_of` reductions sampleRecorded ∧
  HighsDataStack.data (reductionValues sampleStack)
    `prefix_of` HighsDataStack.data (reductionValues sampleRecorded) ∧
  HighsDataStack.position (reductionValues sampleRecorded)
    = HighsDataStack.position (reductionValues sampleStack) ∧
  origColIndex sampleRecorded = origColIndex sampleStack ∧
  origRowIndex sampleRecorded = origRowIndex sampleStack ∧
  origNumCol sampleRecorded = origNumCol sampleStack ∧
  origNumRow sampleRecorded = origNumRow sampleStack.
Proof.
  split; [reflexivity|].
  exact (recording_is_append_only sampleCalls sampleStack sampleRecorded
           eq_refl).
Defined.

Lemma record_defined_iff_witness :
  AssertionsHold (CallFixedColAtLower 0 two one [(1, one)]) ∧
  (∃ r, StoresOriginalIndices sampleStack
          (CallFixedColAtLower 0 two one [(1, one)]) r) ∧
  (∃ st', record (CallFixedColAtLower 0 two one [(1, one)]) sampleStack
          = Ok st') ∧
  (record (CallFixedColAtLower 0 infinity one [(1, one)]) sampleStack
     = Fail AssertionFailed ∧
   (AssertionFailed = AssertionFailed ∧
    ¬ AssertionsHold (CallFixedColAtLower 0 infinity one [(1, one)]) ∨
    AssertionFailed = OutOfBounds)).
Proof.
  assert (Hidx : ∃ r, StoresOriginalIndices sampleStack
                        (CallFixedColAtLower 0 two one [(1, one)]) r).
  { exists (RFixedCol (FixedCol.mk two one 1 HighsBasisStatus.LOWER) [(2, one)]).
    split; [reflexivity|]. repeat constructor. }
  split; [reflexivity|]. split; [exact Hidx|]. split.
  - exact (proj2 (proj1 (record_defined_iff
                           (CallFixedColAtLower 0 two one [(1, one)])
                           sampleStack))
             (conj eq_refl Hidx)).
  - split; [reflexivity|].
    exact (proj1 (proj2 (record_defined_iff
                           (CallFixedColAtLower 0 infinity one [(1, one)])
                           sampleStack))
             AssertionFailed eq_refl).
Defined.

Lemma binary64_sample_bounds :
  binary64 (S754_zero true) ∧ binary64 (S754_zero false) ∧
  binary64 infinity ∧ binary64 three.
Proof. repeat split. Qed.

Lemma doubletonEquation_tightening_flags_witness :
  ∃ st',
    doubletonEquation 0 0 1 two one three double0 infinity (S754_zero true)
      infinity (S754_zero false) three two [(0, one); (1, two)] sampleStack
      = Ok st' ∧
    ∃ d colValues',
      HighsDataStack.data (reductionValues st')
        = HighsDataStack.data (reductionValues sampleStack)
          ++ [HighsDataStack.EDoubletonEquation d;
              HighsDataStack.ENonzeros colValues'] ∧
      (DoubletonEquation.lowerTightened d = true ↔
         isnan (S754_zero true) = false ∧ isnan (S754_zero false) = false ∧
         ulps (S754_zero true) < ulps (S754_zero false)) ∧
      (DoubletonEquation.upperTightened d = true ↔
         isnan three = false ∧ isnan infinity = false ∧
         ulps three < ulps infinity).
Proof.
  eexists. split; [vm_compute; reflexivity|].
  destruct binary64_sample_bounds as (Hz1 & Hz0 & Hinf & H3).
  exact (doubletonEquation_tightening_flags 0 0 1 two one three double0
           infinity (S754_zero true) infinity (S754_zero false) three two
           [(0, one); (1, two)] sampleStack _ Hz1 Hz0 Hinf H3 eq_refl).
Defined.

Lemma replay_can_be_restarted_witness :
  ∃ st2 sb0,
    undo (H := sampleUndo) HighsBasisStatus.LOWER sampleRecorded sampleSolution
      sampleBasis one = Ok (st2, sb0) ∧
    HighsDataStack.position (reductionValues st2) = 0%nat ∧
    SameOutcome
      (undoUntil (H := sampleUndo) HighsBasisStatus.LOWER sampleRecorded
         sampleDualSolution sampleBasis one 1)
      (undoUntil (H := sampleUndo) HighsBasisStatus.LOWER st2
         sampleDualSolution sampleBasis one 1).
Proof.
  eexists _, _. split; [vm_compute; reflexivity|]. split; [reflexivity|].
  refine (proj2 (proj2 (replay_can_be_restarted (H := sampleUndo)
                          HighsBasisStatus.LOWER one sampleRecorded _)
                   sampleSolution sampleBasis _ 0 (or_introl _)
                   sampleDualSolution sampleBasis 1)).
  vm_compute; reflexivity.
Defined.

Lemma undoUntil_checkpoints_nest_witness :
  Logged sampleRecorded sampleLog ∧
  expandToOriginal HighsBasisStatus.LOWER sampleRecorded sampleSolution
    sampleBasis = Ok sampleExpanded ∧
  ∃ st1 st2 sb2,
    undoUntil (H := sampleUndo) HighsBasisStatus.LOWER sampleRecorded
      sampleSolution sampleBasis one 2 = Ok (st2, sb2) ∧
    undoUntil (H := sampleUndo) HighsBasisStatus.LOWER sampleRecorded
      sampleSolution sampleBasis one 0
      = Ok (st1, replayed (H := sampleUndo) one (take 2 sampleLog) sb2).
Proof.
  split; [exact sampleRecorded_Logged|]. split; [reflexivity|].
  exact (undoUntil_checkpoints_nest (H := sampleUndo) HighsBasisStatus.LOWER
           one sampleRecorded sampleLog sampleSolution sampleBasis
           sampleExpanded 0 2 sampleRecorded_Logged eq_refl eq_refl eq_refl
           (conj (Nat.le_0_l 2) (le_S _ _ (le_n 2)))).
Defined.
